(** * gomail: the frame reader and the SMTP dialogue of [main.go]

    A shallow embedding of [connection.readLine], [connection.readMultiLine],
    [connection.isBodyClose], [connection.readToEndOfBody],
    [connection.writeLn], [connection.handle] and the accept loop of
    [main], together with the properties of the framing engine and of
    the envelope dialogue.

    Go's [[]byte] is a [list ascii], Go's [string] is a [string]; the
    conversion [string(b)] is [string_of_list_ascii].  The transport
    ([net.Conn]) is a script: the results the successive calls of
    [conn.Read] and [conn.Write] will give, in order. *)

From Stdlib Require Import ZArith Lia Ascii String.
From stdpp Require Import base list strings gmap.

Local Open Scope string_scope.
Local Open Scope list_scope.
Local Open Scope nat_scope.

(** ** Bytes and errors *)

Definition CR : ascii := "013".
Definition LF : ascii := "010".
Definition SP : ascii := " ".
Definition TAB : ascii := "009".
Definition DOT : ascii := ".".

(** "\r\n" and the body-close sequence "\r\n.\r\n". *)
Definition crlf : list ascii := [CR; LF].
Definition bodyClose : list ascii := [CR; LF; DOT; CR; LF].

(** [[]byte(s)] and [string(b)]. *)
Definition bytes (s : string) : list ascii := list_ascii_of_string s.
Definition str (b : list ascii) : string := string_of_list_ascii b.

(** The two causes of a [*strconv.NumError]. *)
Inductive num_cause : Type := ErrSyntax | ErrRange.

(** The [error] values that reach [handle]. *)
Inductive error : Type :=
| EOF                                (* io.EOF: the peer closed the stream *)
| NetError (msg : string)            (* any other error of conn.Read / conn.Write *)
| ErrorString (s : string)           (* errors.New(s) *)
| NumError (func num : string) (cause : num_cause).

(** Run-time panics of the Go runtime. *)
Inductive panic : Type :=
| IndexOutOfRange (i len : nat)      (* index out of range [i] with length len *)
| SliceOutOfRange (lo len : nat).    (* slice bounds out of range [lo:len] *)

(** ** The transport *)

(** One call [n, err := conn.Read(b)]: [rd_data] is [b[:n]]. With the
    1024-byte [b] of the source, [length rd_data <= 1024]. *)
Record read_result : Type := Rd { rd_data : list ascii; rd_err : option error }.

(** One call [n, err := conn.Write(p)]: the peer takes [wr_max] bytes at
    most, so that [n] is the smaller of [wr_max] and [len(p)]. *)
Record write_result : Type := Wr { wr_max : nat; wr_err : option error }.

Definition RdOk (s : list ascii) : read_result := Rd s None.
Definition RdErr (e : error) : read_result := Rd [] (Some e).

(** [net.Conn]: what the coming reads and writes return, and the bytes
    the peer has accepted so far. *)
Record Conn : Type := mkConn {
  incoming : list read_result;
  outgoing : list write_result;
  wire : list ascii
}.

(** [type connection struct { conn net.Conn; id int; buf []byte }] *)
Record connection : Type := Connection {
  conn : Conn;
  id : Z;
  buf : list ascii
}.

Definition set_buf (c : connection) (b : list ascii) : connection :=
  Connection (conn c) (id c) b.
Definition set_incoming (c : connection) (rs : list read_result) : connection :=
  Connection (mkConn rs (outgoing (conn c)) (wire (conn c))) (id c) (buf c).

(** ** Outcomes of a call *)

(** A call returns, panics, waits for ever on a transport whose script
    is exhausted, or loops for ever without touching the transport.
    [OutOfFuel] is for the two loops of [handle], which are bounded by a
    count of the bytes and reads still to come; [handle_has_fuel] shows
    that [handle] never gives it. *)
Inductive run (A : Type) : Type :=
| Returns (a : A)
| Panics (p : panic)
| Blocks
| Spins
| OutOfFuel.
Arguments Returns {A} a.
Arguments Panics {A} p.
Arguments Blocks {A}.
Arguments Spins {A}.
Arguments OutOfFuel {A}.

Definition M (A : Type) : Type := connection -> run A * connection.

(** ** The frame reader *)

(** [for i, b := range l { if body(i, b) { return i } }]: the first index
    whose body returns, counting from [i]. *)
Fixpoint range_from {A : Type} (body : nat -> A -> bool) (i : nat) (l : list A)
  : option nat :=
  match l with
  | [] => None
  | b :: l' => if body i b then Some i else range_from body (S i) l'
  end.

(** [c.buf[i] == x], for an index within the buffer. The tests below
    are evaluated at the indices of a [range] over the buffer, and their
    guards [i > 0], [i > 1] and [i > 4] keep the lower indices in range
    too, so that the index-out-of-range panic of Go never comes up; out
    of range, where this value means nothing, it is [false]. *)
Definition at_is (b : list ascii) (i : nat) (x : ascii) : bool :=
  bool_decide (b !! i = Some x).

(** The test of [readLine]: [b == '\n' && i > 0 && c.buf[i-1] == '\r']. *)
Definition endOfLine (b : list ascii) (i : nat) (x : ascii) : bool :=
  bool_decide (x = LF) && (0 <? i) && at_is b (i - 1) CR.

Fixpoint readLine_from (rs : list read_result) (b : list ascii)
  : run (string * option error) * (list read_result * list ascii) :=
  match rs with
  | [] => (Blocks, ([], b))
  | r :: rs' =>
      match rd_err r with
      | Some e => (Returns ("", Some e), (rs', b))
      | None =>
          let b' := b ++ rd_data r in
          match range_from (endOfLine b') 0 b' with
          | Some i => (Returns (str (take (i - 1) b'), None), (rs', drop (i + 1) b'))
          | None => readLine_from rs' b'
          end
      end
  end.

Definition readLine : M (string * option error) := fun c =>
  let '(r, (rs, b)) := readLine_from (incoming (conn c)) (buf c) in
  (r, set_buf (set_incoming c rs) b).

(** [func (c *connection) isBodyClose(i int) bool] *)
Definition isBodyClose (b : list ascii) (i : nat) : bool :=
  (4 <? i) &&
  at_is b (i - 4) CR &&
  at_is b (i - 3) LF &&
  at_is b (i - 2) DOT &&
  at_is b (i - 1) CR &&
  at_is b (i - 0) LF.

(** The test of [readMultiLine]. *)
Definition endOfFolded (b : list ascii) (i : nat) (x : ascii) : bool :=
  (1 <? i) &&
  negb (bool_decide (x = SP)) &&
  negb (bool_decide (x = TAB)) &&
  at_is b (i - 2) CR &&
  at_is b (i - 1) LF.

(** The inner loop of [readMultiLine]: [inl i] when it returns at index
    [i], [inr noMoreReads] when the range is exhausted. *)
Fixpoint scanMultiLine (b : list ascii) (i : nat) (l : list ascii)
  (noMoreReads : bool) : nat + bool :=
  match l with
  | [] => inr noMoreReads
  | x :: l' =>
      if endOfFolded b i x then inl i
      else scanMultiLine b (S i) l' (isBodyClose b i)
  end.

(** When [noMoreReads] is set the iteration changes neither the buffer
    nor the transport, so every later iteration is the same one: the
    loop spins. *)
Fixpoint readMultiLine_from (rs : list read_result) (b : list ascii)
  : run (string * option error) * (list read_result * list ascii) :=
  match scanMultiLine b 0 b false with
  | inl i => (Returns (str (take (i - 2) b), None), (rs, drop i b))
  | inr true => (Spins, (rs, b))
  | inr false =>
      match rs with
      | [] => (Blocks, ([], b))
      | r :: rs' =>
          match rd_err r with
          | Some e => (Returns ("", Some e), (rs', b))
          | None => readMultiLine_from rs' (b ++ rd_data r)
          end
      end
  end.

Definition readMultiLine : M (string * option error) := fun c =>
  let '(r, (rs, b)) := readMultiLine_from (incoming (conn c)) (buf c) in
  (r, set_buf (set_incoming c rs) b).

(** [readToEndOfBody]: [c.buf] is not assigned on the way out. *)
Fixpoint readToEndOfBody_from (rs : list read_result) (b : list ascii)
  : run (string * option error) * (list read_result * list ascii) :=
  match range_from (fun i _ => isBodyClose b i) 0 b with
  | Some i => (Returns (str (take (i - 4) b), None), (rs, b))
  | None =>
      match rs with
      | [] => (Blocks, ([], b))
      | r :: rs' =>
          match rd_err r with
          | Some e => (Returns ("", Some e), (rs', b))
          | None => readToEndOfBody_from rs' (b ++ rd_data r)
          end
      end
  end.

Definition readToEndOfBody (toRead : Z) : M (string * option error) := fun c =>
  let '(r, (rs, b)) := readToEndOfBody_from (incoming (conn c)) (buf c) in
  (r, set_buf (set_incoming c rs) b).

(** ** Go's [strings] and [strconv], as far as [handle] uses them *)

(** [len(s)] *)
Definition len (s : string) : nat := String.length s.

(** [s[:n]] and [s[n:]] for [n <= len(s)]. *)
Fixpoint sliceTo (n : nat) (s : string) : string :=
  match n, s with
  | S n', String c s' => String c (sliceTo n' s')
  | _, _ => ""
  end.

Fixpoint sliceFrom (n : nat) (s : string) : string :=
  match n, s with
  | S n', String _ s' => sliceFrom n' s'
  | _, _ => s
  end.

(** [strings.HasPrefix(s, prefix)] *)
Definition HasPrefix (s pre : string) : bool := String.prefix pre s.

(** [strings.Index(s, sep)]; [None] is Go's -1. *)
Fixpoint Index (s sep : string) : option nat :=
  if HasPrefix s sep then Some 0
  else match s with
       | "" => None
       | String _ s' => S <$> Index s' sep
       end.

(** [strings.SplitN(s, sep, n)] for a separator that is not empty. *)
Fixpoint SplitN (s sep : string) (n : nat) : list string :=
  match n with
  | 0 => []
  | 1 => [s]
  | S n' =>
      match Index s sep with
      | None => [s]
      | Some m => sliceTo m s :: SplitN (sliceFrom (m + len sep) s) sep n'
      end
  end.

(** [utf8.RuneSelf]: bytes below it are ASCII. *)
Definition isASCII (c : ascii) : bool := nat_of_ascii c <? 128.

Definition upperByte (c : ascii) : ascii :=
  let n := nat_of_ascii c in
  if (97 <=? n) && (n <=? 122) then ascii_of_nat (n - 32) else c.

Fixpoint mapBytes (f : ascii -> ascii) (s : string) : string :=
  match s with
  | "" => ""
  | String c s' => String (f c) (mapBytes f s')
  end.

Fixpoint allBytes (p : ascii -> bool) (s : string) : bool :=
  match s with
  | "" => true
  | String c s' => p c && allBytes p s'
  end.

(** The [asciiSpace] table of package [strings]. *)
Definition asciiSpace (c : ascii) : bool :=
  let n := nat_of_ascii c in
  (n =? 9) || (n =? 10) || (n =? 11) || (n =? 12) || (n =? 13) || (n =? 32).

(** The first loop of [strings.TrimSpace]: [inl] the string from its
    first byte that is not an ASCII space, [inr] the string from the
    non-ASCII byte that ends the fast path. *)
Fixpoint skipSpace (s : string) : string + string :=
  match s with
  | "" => inl ""
  | String c s' =>
      if negb (isASCII c) then inr s
      else if asciiSpace c then skipSpace s' else inl s
  end.

(** The program is taken as built for a target whose [int] has 64 bits
    (amd64, arm64): [strconv]'s constant [intSize], the bounds of [int]
    and of [uint64]. *)
Definition intSize : Z := 64.
Definition maxInt : Z := 2 ^ 63 - 1.
Definition minInt : Z := - 2 ^ 63.
Definition maxUint64 : Z := 2 ^ 64 - 1.

(** [a + b] in [int]: the sum wraps around. *)
Definition intAdd (a b : Z) : Z := ((a + b + 2 ^ 63) mod 2 ^ 64 - 2 ^ 63)%Z.

(** [strconv.Atoi], with [strconv.ParseInt(s, 10, 0)] and
    [strconv.ParseUint(s, 10, 0)] behind it, starts here.
    [ch -= '0'; if ch > 9 { error }]: the digit that [ch] stands for. *)
Definition digit (c : ascii) : option Z :=
  let n := nat_of_ascii c in
  if (48 <=? n) && (n <=? 57) then Some (Z.of_nat n - 48)%Z else None.

(** The loop of the fast path of [Atoi], [n = n*10 + int(ch)]. It is run
    on fewer than 19 bytes, so that [n] stays below 10^18 and the
    arithmetic of [int] is exact. *)
Fixpoint digits (acc : Z) (s : string) : option Z :=
  match s with
  | "" => Some acc
  | String c s' =>
      match digit c with
      | Some d => digits (10 * acc + d)%Z s'
      | None => None
      end
  end.

(** What [ParseUint] gives: a number, a syntax error or a range error. *)
Inductive parsed : Type :=
| Value (n : Z)
| Syntax
| Range.

(** The loop of [ParseUint] in base 10, byte by byte: a byte that is no
    digit is a syntax error (a letter stands for 10 or more, which the
    base refuses); [maxUint64 / 10 + 1] is the [cutoff] above which
    [n*10] overflows; [n1 < n || n1 > maxVal] on [uint64] says that
    [n*10 + d] is above [maxUint64]. The bytes after an overflow are not
    looked at. *)
Fixpoint parseUintLoop (n : Z) (s : string) : parsed :=
  match s with
  | "" => Value n
  | String c s' =>
      match digit c with
      | None => Syntax
      | Some d =>
          if (maxUint64 / 10 + 1 <=? n)%Z then Range
          else if (maxUint64 <? n * 10 + d)%Z then Range
          else parseUintLoop (n * 10 + d)%Z s'
      end
  end.

Definition ParseUint (s : string) : parsed :=
  match s with
  | "" => Syntax
  | _ => parseUintLoop 0 s
  end.

(** [ParseInt(s, 10, 0)]: the value and the kind of the error. After a
    range error of [ParseUint] the unsigned value is [maxUint64]. *)
Definition ParseInt (s : string) : Z * option num_cause :=
  match s with
  | "" => (0%Z, Some ErrSyntax)
  | String c u0 =>
      let '(neg, u) :=
        if bool_decide (c = "+"%char) then (false, u0)
        else if bool_decide (c = "-"%char) then (true, u0)
        else (false, s) in
      match ParseUint u with
      | Syntax => (0%Z, Some ErrSyntax)
      | r =>
          let un := match r with Value n => n | _ => maxUint64 end in
          let cutoff := (2 ^ 63)%Z in
          if negb neg && (cutoff <=? un)%Z then ((cutoff - 1)%Z, Some ErrRange)
          else if neg && (cutoff <? un)%Z then ((- cutoff)%Z, Some ErrRange)
          else ((if neg then - un else un)%Z, None)
      end
  end.

(** [strconv.Atoi]: the fast path for 1 to 18 bytes, [ParseInt] for the
    rest. *)
Definition Atoi (s : string) : Z * option error :=
  let sLen := len s in
  if (0 <? sLen) && (sLen <? 19) then
    match s with
    | "" => (0%Z, Some (NumError "Atoi" s ErrSyntax))
    | String c u0 =>
        let sign := bool_decide (c = "-"%char) || bool_decide (c = "+"%char) in
        let u := if sign then u0 else s in
        if sign && (len u <? 1) then (0%Z, Some (NumError "Atoi" s ErrSyntax))
        else
          match digits 0 u with
          | None => (0%Z, Some (NumError "Atoi" s ErrSyntax))
          | Some n => ((if bool_decide (c = "-"%char) then - n else n)%Z, None)
          end
    end
  else
    let '(i64, err) := ParseInt s in
    (i64, NumError "Atoi" s <$> err).

Section Unicode.

(** What package [strings] does once it meets a byte that is not ASCII:
    [strings.Map(unicode.ToUpper, s)], [strings.TrimFunc(s, unicode.IsSpace)]
    and [strings.TrimRightFunc(s, unicode.IsSpace)]. The ASCII paths
    below never call them. *)
Variable unicodeUpper : string -> string.
Variable unicodeTrim : string -> string.
Variable unicodeTrimRight : string -> string.

(** [strings.ToUpper] *)
Definition ToUpper (s : string) : string :=
  if allBytes isASCII s then mapBytes upperByte s else unicodeUpper s.

(** [strings.TrimSpace] *)
Definition TrimSpace (s : string) : string :=
  match skipSpace s with
  | inr t => unicodeTrim t
  | inl t =>
      match skipSpace (String.rev t) with
      | inr r => unicodeTrimRight (String.rev r)
      | inl r => String.rev r
      end
  end.

End Unicode.

(** ** The envelope *)

Record message : Type := Message {
  clientDomain : string;
  smtpHeaders : gmap string string;
  atmHeaders : gmap string string;
  body : string;
  from : string;
  date : string;
  subject : string;
  to : string
}.

Definition set_clientDomain (m : message) (v : string) : message :=
  Message v (smtpHeaders m) (atmHeaders m) (body m) (from m) (date m) (subject m) (to m).
Definition set_smtpHeader (m : message) (k v : string) : message :=
  Message (clientDomain m) (<[k:=v]> (smtpHeaders m)) (atmHeaders m) (body m)
          (from m) (date m) (subject m) (to m).
Definition set_atmHeader (m : message) (k v : string) : message :=
  Message (clientDomain m) (smtpHeaders m) (<[k:=v]> (atmHeaders m)) (body m)
          (from m) (date m) (subject m) (to m).
Definition set_body (m : message) (v : string) : message :=
  Message (clientDomain m) (smtpHeaders m) (atmHeaders m) v (from m) (date m) (subject m) (to m).
Definition set_from (m : message) (v : string) : message :=
  Message (clientDomain m) (smtpHeaders m) (atmHeaders m) (body m) v (date m) (subject m) (to m).
Definition set_date (m : message) (v : string) : message :=
  Message (clientDomain m) (smtpHeaders m) (atmHeaders m) (body m) (from m) v (subject m) (to m).
Definition set_subject (m : message) (v : string) : message :=
  Message (clientDomain m) (smtpHeaders m) (atmHeaders m) (body m) (from m) (date m) v (to m).
Definition set_to (m : message) (v : string) : message :=
  Message (clientDomain m) (smtpHeaders m) (atmHeaders m) (body m) (from m) (date m) (subject m) v.

(** ** Sequencing *)

Definition ret {A : Type} (a : A) : M A := fun c => (Returns a, c).

Definition throw {A : Type} (p : panic) : M A := fun c => (Panics p, c).

Definition bind {A B : Type} (m : M A) (k : A -> M B) : M B := fun c =>
  match m c with
  | (Returns a, c') => k a c'
  | (Panics p, c') => (Panics p, c')
  | (Blocks, c') => (Blocks, c')
  | (Spins, c') => (Spins, c')
  | (OutOfFuel, c') => (OutOfFuel, c')
  end.

Notation "'let*' x ':=' m 'in' k" := (bind m (fun x => k))
  (at level 10, x pattern, m at level 100, k at level 200).

(** [l[i]] *)
Definition index (l : list string) (i : nat) : M string :=
  match l !! i with
  | Some v => ret v
  | None => throw (IndexOutOfRange i (length l))
  end.

(** [s[n:]] *)
Definition slice (s : string) (n : nat) : M string :=
  if n <=? len s then ret (sliceFrom n s) else throw (SliceOutOfRange n (len s)).

(** ** Writing *)

Fixpoint writeLn_from (ws : list write_result) (msg : list ascii) (w : list ascii)
  : run (option error) * (list write_result * list ascii) :=
  match msg with
  | [] => (Returns None, (ws, w))
  | _ :: _ =>
      match ws with
      | [] => (Blocks, ([], w))
      | r :: ws' =>
          let n := Nat.min (wr_max r) (length msg) in
          match wr_err r with
          | Some e => (Returns (Some e), (ws', w ++ take n msg))
          | None => writeLn_from ws' (drop n msg) (w ++ take n msg)
          end
      end
  end.

Definition writeLn (msg : string) : M (option error) := fun c =>
  let '(r, (ws, w)) :=
    writeLn_from (outgoing (conn c)) (bytes msg ++ crlf) (wire (conn c)) in
  (r, Connection (mkConn (incoming (conn c)) ws w) (id c) (buf c)).

(** ** The dialogue *)

(** How [handle] ends when it returns: it has logged [e] and given up, or
    it has gone through every phase. Either way the deferred
    [c.conn.Close()] has run. The [logInfo] lines are not kept. *)
Inductive exit : Type :=
| Failed (e : error)
| Completed (m : message) (size : Z).

(** What one line of the command loop amounts to. *)
Inductive command : Type :=
| Data
| Stored (m : message) (size : Z)
| Rejected (e : error).

(** [for _, setting := range ehloSettings { ... }] *)
Fixpoint writeSettings (l : list string) : M (option error) :=
  match l with
  | [] => ret None
  | setting :: l' =>
      let* err := writeLn ("250-" +:+ setting) in
      match err with
      | Some e => ret (Some e)
      | None => writeSettings l'
      end
  end.

Definition ehloSettings : list string := ["8BITMIME"; "SIZE"; "DSN"].

(** The bytes still to be framed and the reads still to come: every
    frame that is returned takes some of them away. *)
Definition budget (c : connection) : nat :=
  length (buf c) + sum_list (map (fun r => S (length (rd_data r))) (incoming (conn c))).

Section Dialogue.

Variable unicodeUpper : string -> string.
Variable unicodeTrim : string -> string.
Variable unicodeTrimRight : string -> string.

Local Abbreviation ToUpper := (ToUpper unicodeUpper).
Local Abbreviation TrimSpace := (TrimSpace unicodeTrim unicodeTrimRight).

(** The body of the command loop between [c.readLine()] and the reply. *)
Definition interpret (line : string) (msg : message) (size : Z) : M command :=
  let pieces := SplitN line ":" 2 in
  let* p0 := index pieces 0 in
  let smtpHeader := ToUpper p0 in
  if decide (smtpHeader = "DATA") then ret Data
  else
    let* smtpValue := index pieces 1 in
    let msg := set_smtpHeader msg smtpHeader smtpValue in
    if decide (smtpHeader = "MAIL FROM") then
      let* afterFrom := index (SplitN smtpValue "> " 2) 1 in
      if HasPrefix afterFrom "SIZE=" then
        let* afterEq := index (SplitN afterFrom "SIZE=" 2) 1 in
        match Atoi afterEq with
        | (_, Some e) => ret (Rejected e)
        | (n, None) => ret (Stored msg n)
        end
      else ret (Stored msg size)
    else ret (Stored msg size).

(** [for line != "" { ... }]: [inl] when [handle] returns from inside the
    loop, [inr] when the loop is left. *)
Fixpoint commandLoop (fuel : nat) (line : string) (msg : message) (size : Z)
  : M (exit + message * Z) :=
  if decide (line = "") then ret (inr (msg, size))
  else
    match fuel with
    | 0 => fun c => (OutOfFuel, c)
    | S fuel' =>
        let* (line, err) := readLine in
        match err with
        | Some e => ret (inl (Failed e))
        | None =>
            let* cmd := interpret line msg size in
            match cmd with
            | Data =>
                let* err := writeLn "354" in
                match err with
                | Some e => ret (inl (Failed e))
                | None => ret (inr (msg, size))
                end
            | Rejected e => ret (inl (Failed e))
            | Stored msg size =>
                let* err := writeLn "250 OK" in
                match err with
                | Some e => ret (inl (Failed e))
                | None => commandLoop fuel' line msg size
                end
            end
        end
    end.

(** The four [if atmHeader == ...] of the header loop. *)
Definition mirror (msg : message) (atmHeader atmValue : string) : message :=
  let msg := if decide (atmHeader = "SUBJECT") then set_subject msg atmValue else msg in
  let msg := if decide (atmHeader = "TO") then set_to msg atmValue else msg in
  let msg := if decide (atmHeader = "FROM") then set_from msg atmValue else msg in
  if decide (atmHeader = "DATE") then set_date msg atmValue else msg.

Fixpoint headerLoop (fuel : nat) (msg : message) : M (exit + message) :=
  match fuel with
  | 0 => fun c => (OutOfFuel, c)
  | S fuel' =>
      let* (line, err) := readMultiLine in
      match err with
      | Some e => ret (inl (Failed e))
      | None =>
          if decide (TrimSpace line = "") then ret (inr msg)
          else
            let pieces := SplitN line ": " 2 in
            let* p0 := index pieces 0 in
            let atmHeader := ToUpper p0 in
            let* atmValue := index pieces 1 in
            let msg := set_atmHeader msg atmHeader atmValue in
            headerLoop fuel' (mirror msg atmHeader atmValue)
      end
  end.

(** [handle] after the greeting reply has been accepted. *)
Definition envelope (line : string) (msg : message) : M exit :=
  let* err := writeLn ("250-mail.binutils.org greets " +:+ clientDomain msg) in
  match err with
  | Some e => ret (Failed e)
  | None =>
  let* err := writeSettings ehloSettings in
  match err with
  | Some e => ret (Failed e)
  | None =>
  let* err := writeLn "250 HELP" in
  match err with
  | Some e => ret (Failed e)
  | None =>
  let* r := (fun c => commandLoop (S (budget c)) line msg 0%Z c) in
  match r with
  | inl e => ret e
  | inr (msg, size) =>
  let* r := (fun c => headerLoop (S (budget c)) msg c) in
  match r with
  | inl e => ret e
  | inr msg =>
  let* (b, err) := readToEndOfBody size in
  match err with
  | Some e => ret (Failed e)
  | None =>
  let msg := set_body msg b in
  let* err := writeLn "250 OK" in
  match err with
  | Some e => ret (Failed e)
  | None => ret (Completed msg size)
  end end end end end end end.

(** [func (c *connection) handle()] *)
Definition handle : M exit :=
  let* err := writeLn "220 mail.binutils.org ESMTP gomail" in
  match err with
  | Some e => ret (Failed e)
  | None =>
      let* (line, err) := readLine in
      match err with
      | Some e => ret (Failed e)
      | None =>
          let msg := Message "" ∅ ∅ "" "" "" "" "" in
          if HasPrefix line "EHLO" then
            let* d := slice line (len "EHLO ") in
            envelope line (set_clientDomain msg d)
          else ret (Failed (ErrorString ("Expected EHLO got: " +:+ line)))
      end
  end.

End Dialogue.

(** ** Accepting connections *)

(** The loop of [main] over the results that [l.Accept()] has given so
    far: a failed accept is logged and skipped, a connection gets the
    next id, by [id += 1] on an [int], and a nil buffer and is handed to
    [go c.handle()]. The value is the list of those connections, oldest
    first, and the last id. *)
Fixpoint acceptLoop (id : Z) (results : list (Conn + error))
  : list connection * Z :=
  match results with
  | [] => ([], id)
  | inr _ :: rest => acceptLoop id rest
  | inl cn :: rest =>
      let id := intAdd id 1 in
      let c := Connection cn id [] in
      let '(cs, last) := acceptLoop id rest in
      (c :: cs, last)
  end.

(** [func main()], from [id := 0] on. *)
Definition main (results : list (Conn + error)) : list connection * Z :=
  acceptLoop 0 results.

(** * Vocabulary of the statements *)

(** The first index of [b] at which [p] holds is [k]. *)
Definition first_at (p : nat -> bool) (b : list ascii) (k : nat) : Prop :=
  k < length b /\ p k = true /\ forall j, j < k -> p j = false.

(** [pat] sits in [b] at offset [s]. *)
Definition occurs_at (pat b : list ascii) (s : nat) : Prop :=
  pat `prefix_of` drop s b.

(** The test of [readLine] at index [i] of the buffer it ranges over. *)
Definition lineEndAt (b : list ascii) (i : nat) : bool :=
  at_is b i LF && (0 <? i) && at_is b (i - 1) CR.

(** The test of [readMultiLine] at index [i]. *)
Definition foldEndAt (b : list ascii) (i : nat) : bool :=
  (1 <? i) && negb (at_is b i SP) && negb (at_is b i TAB) &&
  at_is b (i - 2) CR && at_is b (i - 1) LF.

(** A test that looks at the buffer up to index [i] only. *)
Definition stable (p : list ascii -> nat -> bool) : Prop :=
  forall b d i, i < length b -> p (b ++ d) i = p b i.

(** The reads a call has taken from the script [rs], leaving [rs']: all
    of them without error. *)
Definition took (rs rs' : list read_result) (data : list ascii) : Prop :=
  exists used, rs = used ++ rs' /\ Forall (fun r => rd_err r = None) used /\
               data = concat (map rd_data used).

(** [s] followed by CRLF, as bytes. *)
Definition line (s : string) : list ascii := bytes s ++ crlf.

(** A peer that takes every write whole and sends the reads [rs]. *)
Definition peer (rs : list read_result) : Conn :=
  mkConn rs (repeat (Wr 1024 None) 16) [].

(** A new connection to it, as [main] makes it: [connection{conn, id, nil}]. *)
Definition accepted (rs : list read_result) : connection := Connection (peer rs) 1 [].

(** The payloads of up to [n] calls of [readLine], one after the other,
    up to the first that does not return a line. *)
Fixpoint readLines (n : nat) (c : connection) : list string :=
  match n with
  | 0 => []
  | S n' =>
      match readLine c with
      | (Returns (l, None), c') => l :: readLines n' c'
      | _ => []
      end
  end.

Definition dottedBody : list ascii := line "line1" ++ line ".." ++ bytes "line2".

(** The character of the digit [d]. *)
Definition digitChar (d : nat) : ascii := ascii_of_nat (48 + d).

(** The numeral with the digits [ds], most significant first, and the
    number it denotes. *)
Fixpoint numeral (ds : list nat) : string :=
  match ds with
  | [] => ""
  | d :: ds' => String (digitChar d) (numeral ds')
  end.

Fixpoint value (ds : list nat) : Z :=
  match ds with
  | [] => 0
  | d :: ds' => Z.of_nat d * 10 ^ Z.of_nat (length ds') + value ds'
  end.

(** The sign that may stand before a numeral. *)
Inductive sign : Type := NoSign | Plus | Minus.

Definition signChars (sg : sign) : string :=
  match sg with
  | NoSign => ""
  | Plus => "+"
  | Minus => "-"
  end.

Definition signed (sg : sign) (n : Z) : Z :=
  match sg with
  | Minus => (- n)%Z
  | _ => n
  end.

(** [s] is a numeral with an optional sign. *)
Definition signedNumeral (s : string) : Prop :=
  exists sg ds, ds <> [] /\ Forall (fun d => d < 10) ds /\
                s = signChars sg +:+ numeral ds.

(** [n] fits an [int]. *)
Definition fits (n : Z) : Prop := (minInt <= n <= maxInt)%Z.

(** [ParseInt] after [ParseUint]. *)
Definition checkRange (neg : bool) (r : parsed) : Z * option num_cause :=
  match r with
  | Syntax => (0%Z, Some ErrSyntax)
  | _ =>
      let un := match r with Value n => n | _ => maxUint64 end in
      let cutoff := (2 ^ 63)%Z in
      if negb neg && (cutoff <=? un)%Z then ((cutoff - 1)%Z, Some ErrRange)
      else if neg && (cutoff <? un)%Z then ((- cutoff)%Z, Some ErrRange)
      else ((if neg then - un else un)%Z, None)
  end.

(** Traffic that is ASCII throughout never reaches the three functions
    of package [unicode]; [handleASCII] is [handle] for such traffic. *)
Definition unreached : string -> string := fun s => s.
Definition handleASCII : M exit := handle unreached unreached unreached.

(** What the reads still to come weigh in [budget]. *)
Definition cost (rs : list read_result) : nat :=
  sum_list (map (fun r => S (length (rd_data r))) rs).

(** A step that does not touch the connection. *)
Definition pure {A : Type} (m : M A) : Prop :=
  forall c, (m c).2 = c /\ (m c).1 <> OutOfFuel.

Definition banner : string := "220 mail.binutils.org ESMTP gomail".


Definition noMessage : message := Message "" ∅ ∅ "" "" "" "" "".

(** The transports of the accepts that did not fail. *)
Definition accepts (results : list (Conn + error)) : list Conn :=
  omap (fun r => match r with inl cn => Some cn | inr _ => None end) results.

(** * Properties *)

(** ** Range loops *)

Lemma range_from_Some {A} (body : nat -> A -> bool) i l k :
  range_from body i l = Some k <->
  exists j x, k = i + j /\ l !! j = Some x /\ body k x = true /\
    forall j' y, j' < j -> l !! j' = Some y -> body (i + j') y = false.
Proof.
  revert i. induction l as [|a l IH]; intros i; simpl.
  - split; [discriminate|]. intros (j & x & _ & Hx & _). discriminate.
  - destruct (body i a) eqn:Hb.
    + split.
      * intros [= <-]. exists 0, a. rewrite Nat.add_0_r. repeat split; auto. lia.
      * intros (j & x & -> & Hx & Hk & Hlt). destruct j as [|j].
        -- by rewrite Nat.add_0_r.
        -- specialize (Hlt 0 a ltac:(lia) eq_refl). rewrite Nat.add_0_r in Hlt. congruence.
    + rewrite IH. split.
      * intros (j & x & -> & Hx & Hk & Hlt). exists (S j), x.
        replace (i + S j) with (S i + j) by lia.
        repeat split; [done | done |].
        intros [|j'] y Hj' Hy; simpl in Hy.
        -- injection Hy as <-. by rewrite Nat.add_0_r.
        -- replace (i + S j') with (S i + j') by lia. apply Hlt; [lia | done].
      * intros (j & x & -> & Hx & Hk & Hlt). destruct j as [|j].
        -- simpl in Hx. injection Hx as <-. rewrite Nat.add_0_r in Hk. congruence.
        -- exists j, x. replace (S i + j) with (i + S j) by lia.
           repeat split; [done | done |].
           intros j' y Hj' Hy. replace (S i + j') with (i + S j') by lia.
           apply (Hlt (S j')); [lia | done].
Qed.

Lemma range_from_None {A} (body : nat -> A -> bool) i l :
  range_from body i l = None <->
  forall j y, l !! j = Some y -> body (i + j) y = false.
Proof.
  revert i. induction l as [|a l IH]; intros i; simpl.
  - split; [|done]. intros _ j y Hy. by destruct j.
  - destruct (body i a) eqn:Hb.
    + split; [discriminate|]. intros H. specialize (H 0 a eq_refl).
      rewrite Nat.add_0_r in H. congruence.
    + rewrite IH. split.
      * intros H [|j] y Hy; simpl in Hy.
        -- injection Hy as <-. by rewrite Nat.add_0_r.
        -- replace (i + S j) with (S i + j) by lia. by apply H.
      * intros H j y Hy. replace (S i + j) with (i + S j) by lia. by apply (H (S j)).
Qed.

Lemma range_first (p : nat -> bool) (b : list ascii) k :
  range_from (fun i _ => p i) 0 b = Some k <-> first_at p b k.
Proof.
  rewrite range_from_Some. unfold first_at. split.
  - intros (j & x & -> & Hx & Hk & Hlt). simpl in *.
    pose proof (lookup_lt_Some _ _ _ Hx) as Hj.
    split; [done|]. split; [done|].
    intros j' Hj'. destruct (lookup_lt_is_Some_2 b j') as [y Hy]; [lia|].
    by apply (Hlt j' y).
  - intros (Hk & Hp & Hlt). destruct (lookup_lt_is_Some_2 b k Hk) as [x Hx].
    exists k, x. split; [done|]. split; [done|]. split; [done|].
    intros j' y Hj' _. by apply Hlt.
Qed.

Lemma range_none (p : nat -> bool) (b : list ascii) :
  range_from (fun i _ => p i) 0 b = None <-> forall j, j < length b -> p j = false.
Proof.
  rewrite range_from_None. split.
  - intros H j Hj. destruct (lookup_lt_is_Some_2 b j Hj) as [y Hy]. by apply (H j y).
  - intros H j y Hy. apply H. by eapply lookup_lt_Some.
Qed.

Lemma range_from_ext {A} (body body' : nat -> A -> bool) i l :
  (forall j x, l !! j = Some x -> body (i + j) x = body' (i + j) x) ->
  range_from body i l = range_from body' i l.
Proof.
  revert i. induction l as [|a l IH]; intros i H; simpl; [done|].
  pose proof (H 0 a eq_refl) as H0. rewrite Nat.add_0_r in H0. rewrite <- H0.
  destruct (body i a); [done|]. apply IH. intros j x Hx.
  replace (S i + j) with (i + S j) by lia. by apply H.
Qed.

(** ** The three delimiters, by index *)

Lemma at_is_true b i x : at_is b i x = true <-> b !! i = Some x.
Proof. unfold at_is. by rewrite bool_decide_eq_true. Qed.

Lemma at_is_app b d i x : i < length b -> at_is (b ++ d) i x = at_is b i x.
Proof. intros H. unfold at_is. by rewrite lookup_app_l. Qed.

Lemma occurs_at_lookup pat b s :
  occurs_at pat b s <-> forall j x, pat !! j = Some x -> b !! (s + j) = Some x.
Proof.
  unfold occurs_at. split.
  - intros [k Hk] j x Hx. rewrite <- lookup_drop, Hk. by apply lookup_app_l_Some.
  - revert s. induction pat as [|a pat IH]; intros s H.
    + apply prefix_nil.
    + pose proof (H 0 a eq_refl) as H0. rewrite Nat.add_0_r in H0.
      rewrite (drop_S _ _ _ H0). apply prefix_cons, IH.
      intros j x Hx. replace (S s + j) with (s + S j) by lia. by apply H.
Qed.

Lemma occurs_at_length pat b s : occurs_at pat b s -> pat <> [] -> s + length pat <= length b.
Proof.
  intros [k Hk] Hne. assert (length (drop s b) = length pat + length k) as Hl.
  { by rewrite Hk, length_app. }
  rewrite length_drop in Hl. destruct pat; [done|]. simpl in *. lia.
Qed.

Lemma occurs_at_app_l pat b d s :
  s + length pat <= length b -> occurs_at pat (b ++ d) s <-> occurs_at pat b s.
Proof.
  intros Hs. rewrite !occurs_at_lookup. split; intros H j x Hx.
  - pose proof (lookup_lt_Some _ _ _ Hx). rewrite <- (lookup_app_l b d) by lia. by apply H.
  - pose proof (lookup_lt_Some _ _ _ Hx). rewrite lookup_app_l by lia. by apply H.
Qed.

Lemma endOfLine_at b : range_from (endOfLine b) 0 b = range_from (fun i _ => lineEndAt b i) 0 b.
Proof.
  apply range_from_ext. intros j x Hx. simpl. unfold endOfLine, lineEndAt, at_is at 2.
  rewrite Hx. f_equal. f_equal. apply bool_decide_ext. naive_solver.
Qed.

Lemma lineEndAt_true b i :
  lineEndAt b i = true <-> 0 < i /\ occurs_at crlf b (i - 1).
Proof.
  unfold lineEndAt. rewrite !andb_true_iff, !at_is_true, Nat.ltb_lt, occurs_at_lookup.
  split.
  - intros [[H1 H2] H3]. split; [done|]. intros [|[|j]] x Hx; simpl in Hx; try done.
    + injection Hx as <-. by rewrite Nat.add_0_r.
    + injection Hx as <-. by replace (i - 1 + 1) with i by lia.
  - intros [Hi H]. pose proof (H 0 CR eq_refl) as H0. pose proof (H 1 LF eq_refl) as H1.
    rewrite Nat.add_0_r in H0. replace (i - 1 + 1) with i in H1 by lia. done.
Qed.

Lemma isBodyClose_true b i :
  isBodyClose b i = true <-> 4 < i /\ occurs_at bodyClose b (i - 4).
Proof.
  unfold isBodyClose. rewrite !andb_true_iff, !at_is_true, Nat.ltb_lt, occurs_at_lookup.
  split.
  - intros [[[[[Hi H0] H1] H2] H3] H4]. split; [done|].
    intros [|[|[|[|[|j]]]]] x Hx; simpl in Hx; try done; injection Hx as <-.
    + by rewrite Nat.add_0_r.
    + by replace (i - 4 + 1) with (i - 3) by lia.
    + by replace (i - 4 + 2) with (i - 2) by lia.
    + by replace (i - 4 + 3) with (i - 1) by lia.
    + by replace (i - 4 + 4) with (i - 0) by lia.
  - intros [Hi H].
    pose proof (H 0 CR eq_refl) as H0. pose proof (H 1 LF eq_refl) as H1.
    pose proof (H 2 DOT eq_refl) as H2. pose proof (H 3 CR eq_refl) as H3.
    pose proof (H 4 LF eq_refl) as H4.
    rewrite Nat.add_0_r in H0.
    replace (i - 4 + 1) with (i - 3) in H1 by lia.
    replace (i - 4 + 2) with (i - 2) in H2 by lia.
    replace (i - 4 + 3) with (i - 1) in H3 by lia.
    replace (i - 4 + 4) with (i - 0) in H4 by lia. done.
Qed.

Lemma lineEndAt_stable : stable lineEndAt.
Proof. intros b d i Hi. unfold lineEndAt. rewrite !at_is_app by lia. done. Qed.

Lemma foldEndAt_stable : stable foldEndAt.
Proof. intros b d i Hi. unfold foldEndAt. rewrite !at_is_app by lia. done. Qed.

Lemma isBodyClose_stable : stable isBodyClose.
Proof. intros b d i Hi. unfold isBodyClose. rewrite !at_is_app by lia. done. Qed.

Lemma first_at_app p b d k :
  stable p -> first_at (p (b ++ d)) (b ++ d) k -> k < length b -> first_at (p b) b k.
Proof.
  intros Hp (Hk & Hpk & Hlt) Hkb. split; [done|]. split.
  - by rewrite <- (Hp b d k Hkb).
  - intros j Hj. rewrite <- (Hp b d j) by lia. by apply Hlt.
Qed.

Lemma first_at_later p b d k :
  stable p -> first_at (p (b ++ d)) (b ++ d) k -> length b <= k ->
  forall j, j < length b -> p b j = false.
Proof.
  intros Hp (Hk & Hpk & Hlt) Hkb j Hj. rewrite <- (Hp b d j Hj). apply Hlt. lia.
Qed.

Lemma occurs_at_split pat b s :
  occurs_at pat b s -> b = take s b ++ pat ++ drop (s + length pat) b.
Proof.
  intros [k Hk]. rewrite <- (take_drop s b) at 1. f_equal.
  rewrite <- drop_drop, Hk. by rewrite drop_app_length.
Qed.

Lemma bytes_str b : bytes (str b) = b.
Proof. apply list_ascii_of_string_of_list_ascii. Qed.


(** ** Unfolding the readers *)

Lemma readLine_from_nil b : readLine_from [] b = (Blocks, ([], b)).
Proof. done. Qed.

Lemma readLine_from_ok d rs b :
  readLine_from (RdOk d :: rs) b =
  match range_from (fun i _ => lineEndAt (b ++ d) i) 0 (b ++ d) with
  | Some i => (Returns (str (take (i - 1) (b ++ d)), None), (rs, drop (i + 1) (b ++ d)))
  | None => readLine_from rs (b ++ d)
  end.
Proof. simpl. by rewrite endOfLine_at. Qed.

Lemma readToEndOfBody_from_eq rs b :
  readToEndOfBody_from rs b =
  match range_from (fun i _ => isBodyClose b i) 0 b with
  | Some i => (Returns (str (take (i - 4) b), None), (rs, b))
  | None =>
      match rs with
      | [] => (Blocks, ([], b))
      | r :: rs' =>
          match rd_err r with
          | Some e => (Returns ("", Some e), (rs', b))
          | None => readToEndOfBody_from rs' (b ++ rd_data r)
          end
      end
  end.
Proof. by destruct rs. Qed.

Lemma readMultiLine_from_eq rs b :
  readMultiLine_from rs b =
  match scanMultiLine b 0 b false with
  | inl i => (Returns (str (take (i - 2) b), None), (rs, drop i b))
  | inr true => (Spins, (rs, b))
  | inr false =>
      match rs with
      | [] => (Blocks, ([], b))
      | r :: rs' =>
          match rd_err r with
          | Some e => (Returns ("", Some e), (rs', b))
          | None => readMultiLine_from rs' (b ++ rd_data r)
          end
      end
  end.
Proof. by destruct rs. Qed.

(** ** [readLine] *)

Lemma took_refl rs : took rs rs [].
Proof. by exists []. Qed.

Lemma took_cons r rs rs' data :
  rd_err r = None -> took rs rs' data -> took (r :: rs) rs' (rd_data r ++ data).
Proof.
  intros Hr (used & -> & Hu & ->). exists (r :: used). split; [done|]. split; [|done].
  by constructor.
Qed.

(** Buffer conservation for [readLine]: what was buffered and what was
    read is the line, its CRLF and what stays buffered. *)
Lemma readLine_from_conserves rs b l rs' b' :
  readLine_from rs b = (Returns (l, None), (rs', b')) ->
  exists data, took rs rs' data /\ b ++ data = bytes l ++ crlf ++ b'.
Proof.
  revert b. induction rs as [|r rs IH]; intros b E; simpl in E; [done|].
  destruct (rd_err r) eqn:Hr; [done|]. rewrite endOfLine_at in E.
  destruct (range_from _ _ _) as [i|] eqn:Hscan.
  - injection E as <- <- <-. exists (rd_data r). split.
    + rewrite <- (app_nil_r (rd_data r)). apply took_cons; [done | apply took_refl].
    + apply range_first in Hscan as (Hi & Hp & _).
      apply lineEndAt_true in Hp as [Hpos Hocc]. rewrite bytes_str.
      apply occurs_at_split in Hocc. simpl in Hocc.
      replace (i - 1 + 2) with (i + 1) in Hocc by lia. done.
  - apply IH in E as (data & Ht & Hd). exists (rd_data r ++ data). split.
    + by apply took_cons.
    + by rewrite app_assoc.
Qed.

Lemma first_at_exists (p : nat -> bool) (b : list ascii) k :
  k < length b -> p k = true -> exists k', k' <= k /\ first_at p b k'.
Proof.
  intros Hk Hp. destruct (range_from (fun i _ => p i) 0 b) as [k'|] eqn:E.
  - apply range_first in E. exists k'. split; [|done].
    destruct E as (_ & _ & Hlt). destruct (decide (k' <= k)); [done|].
    rewrite Hlt in Hp by lia. done.
  - rewrite range_none in E. rewrite E in Hp by done. done.
Qed.

Lemma first_at_unique (p : nat -> bool) (b : list ascii) k k' :
  first_at p b k -> first_at p b k' -> k = k'.
Proof.
  intros (_ & Hp & Hlt) (_ & Hp' & Hlt').
  destruct (Nat.lt_trichotomy k k') as [H|[H|H]]; [|done|].
  - rewrite Hlt' in Hp by done. done.
  - rewrite Hlt in Hp' by done. done.
Qed.

(** Fragmentation: however the bytes up to the first CRLF are cut into
    reads, [readLine] returns what precedes that CRLF. *)
Lemma readLine_from_chunks chunks more b total k :
  chunks <> [] ->
  b ++ concat chunks = total ->
  first_at (lineEndAt total) total k ->
  exists n,
    readLine_from (map RdOk chunks ++ more) b =
    (Returns (str (take (k - 1) total), None),
     (map RdOk (drop n chunks) ++ more, drop (k + 1) (b ++ concat (take n chunks)))).
Proof.
  revert b. induction chunks as [|d chunks IH]; intros b Hne Htot Hk; [done|].
  simpl in Htot. rewrite app_assoc in Htot. simpl map. simpl app.
  rewrite readLine_from_ok.
  destruct (decide (k < length (b ++ d))) as [Hlt|Hge].
  - subst total. pose proof (first_at_app _ _ _ _ lineEndAt_stable Hk Hlt) as Hk'.
    apply range_first in Hk'. rewrite Hk'. exists 1. simpl. rewrite drop_0, app_nil_r.
    rewrite (take_app_le (b ++ d)) by lia. done.
  - assert (range_from (fun i _ => lineEndAt (b ++ d) i) 0 (b ++ d) = None) as ->.
    { apply range_none. subst total.
      eapply first_at_later; [apply lineEndAt_stable | apply Hk | lia]. }
    destruct (IH (b ++ d)) as [n Hn]; [|done|done|].
    + intros ->. simpl in Htot. rewrite app_nil_r in Htot. subst total.
      destruct Hk as [Hk _]. lia.
    + exists (S n). rewrite Hn. simpl. by rewrite app_assoc.
Qed.

(** ** [readMultiLine] *)

Lemma scanMultiLine_range b i l acc :
  scanMultiLine b i l acc =
  match range_from (endOfFolded b) i l with
  | Some k => inl k
  | None => inr (match l with [] => acc | _ => isBodyClose b (i + length l - 1) end)
  end.
Proof.
  revert i acc. induction l as [|x l IH]; intros i acc; simpl; [done|].
  destruct (endOfFolded b i x); [done|]. rewrite IH.
  destruct (range_from _ _ _); [done|]. f_equal. destruct l as [|y l]; simpl.
  - f_equal. lia.
  - f_equal. lia.
Qed.

Lemma endOfFolded_at b :
  range_from (endOfFolded b) 0 b = range_from (fun i _ => foldEndAt b i) 0 b.
Proof.
  apply range_from_ext. intros j x Hx. simpl. unfold endOfFolded, foldEndAt, at_is at 3 4.
  rewrite Hx. repeat f_equal; apply bool_decide_ext; naive_solver.
Qed.

Lemma foldEndAt_true b i :
  foldEndAt b i = true <->
  1 < i /\ b !! i <> Some SP /\ b !! i <> Some TAB /\ occurs_at crlf b (i - 2).
Proof.
  unfold foldEndAt. rewrite !andb_true_iff, !negb_true_iff, !at_is_true, Nat.ltb_lt.
  unfold at_is. rewrite !bool_decide_eq_false, occurs_at_lookup. split.
  - intros [[[[H1 H2] H3] H4] H5]. do 3 (split; [done|]).
    intros [|[|j]] x Hx; simpl in Hx; try done; injection Hx as <-.
    + by rewrite Nat.add_0_r.
    + by replace (i - 2 + 1) with (i - 1) by lia.
  - intros (H1 & H2 & H3 & H). pose proof (H 0 CR eq_refl) as H0.
    pose proof (H 1 LF eq_refl) as H1'. rewrite Nat.add_0_r in H0.
    replace (i - 2 + 1) with (i - 1) in H1' by lia. done.
Qed.

(** The scan of [readMultiLine] never leaves [noMoreReads] set: where
    [isBodyClose] holds at the last index, the test of the loop has held
    two indices earlier, at the dot. *)
Lemma scanMultiLine_noMoreReads b v : scanMultiLine b 0 b false = inr v -> v = false.
Proof.
  rewrite scanMultiLine_range, endOfFolded_at.
  destruct (range_from _ _ _) eqn:E; [done|]. intros [= <-].
  rewrite range_none in E. destruct b as [|x b']; [done|].
  set (b := x :: b') in *. destruct (isBodyClose b (0 + length b - 1)) eqn:Hc; [|done].
  apply isBodyClose_true in Hc as [Hlen Hocc]. rewrite occurs_at_lookup in Hocc.
  assert (foldEndAt b (length b - 3) = true) as Hf.
  { apply foldEndAt_true.
    pose proof (Hocc 0 CR eq_refl) as H0. pose proof (Hocc 1 LF eq_refl) as H1.
    pose proof (Hocc 2 DOT eq_refl) as H2.
    replace (0 + length b - 1 - 4 + 0) with (length b - 3 - 2) in H0 by lia.
    replace (0 + length b - 1 - 4 + 1) with (length b - 3 - 2 + 1) in H1 by lia.
    replace (0 + length b - 1 - 4 + 2) with (length b - 3) in H2 by lia.
    split; [lia|]. rewrite H2. split; [done|]. split; [done|].
    apply occurs_at_lookup. intros [|[|j]] y Hy; simpl in Hy; try done; injection Hy as <-.
    - by rewrite Nat.add_0_r.
    - done. }
  rewrite E in Hf; [done|]. lia.
Qed.

Lemma readMultiLine_from_found rs b k :
  first_at (foldEndAt b) b k ->
  readMultiLine_from rs b = (Returns (str (take (k - 2) b), None), (rs, drop k b)).
Proof.
  intros Hk. rewrite readMultiLine_from_eq, scanMultiLine_range, endOfFolded_at.
  apply range_first in Hk. by rewrite Hk.
Qed.

Lemma readMultiLine_from_missing rs b :
  (forall j, j < length b -> foldEndAt b j = false) ->
  readMultiLine_from rs b =
  match rs with
  | [] => (Blocks, ([], b))
  | r :: rs' =>
      match rd_err r with
      | Some e => (Returns ("", Some e), (rs', b))
      | None => readMultiLine_from rs' (b ++ rd_data r)
      end
  end.
Proof.
  intros H. rewrite readMultiLine_from_eq.
  destruct (scanMultiLine b 0 b false) as [i|v] eqn:E.
  - rewrite scanMultiLine_range, endOfFolded_at in E.
    apply range_none in H. by rewrite H in E.
  - by rewrite (scanMultiLine_noMoreReads _ _ E).
Qed.

(** [readMultiLine] never spins. *)
Lemma readMultiLine_from_never_spins rs b : (readMultiLine_from rs b).1 <> Spins.
Proof.
  revert b. induction rs as [|r rs IH]; intros b; rewrite readMultiLine_from_eq;
    destruct (scanMultiLine b 0 b false) as [i|v] eqn:E; try done;
    rewrite (scanMultiLine_noMoreReads _ _ E); try done.
  destruct (rd_err r); [done|]. apply IH.
Qed.

(** Buffer conservation for [readMultiLine]: the block, its CRLF, and a
    buffer that starts at the byte that ended the block. *)
Lemma readMultiLine_from_conserves rs b l rs' b' :
  readMultiLine_from rs b = (Returns (l, None), (rs', b')) ->
  exists data x, took rs rs' data /\ b ++ data = bytes l ++ crlf ++ b' /\
                 b' !! 0 = Some x /\ x <> SP /\ x <> TAB.
Proof.
  revert b. induction rs as [|r rs IH]; intros b; rewrite readMultiLine_from_eq, scanMultiLine_range, endOfFolded_at.
  all: destruct (range_from _ _ _) as [i|] eqn:Hscan.
  all: try (intros [= <- <- <-]; exists []; apply range_first in Hscan as (Hi & Hp & _);
    apply foldEndAt_true in Hp as (Hpos & Hsp & Htab & Hocc);
    destruct (lookup_lt_is_Some_2 b i Hi) as [x Hx]; exists x;
    split; [apply took_refl|]; rewrite bytes_str, app_nil_r;
    split; [apply occurs_at_split in Hocc; simpl in Hocc;
            replace (i - 2 + 2) with i in Hocc by lia; done|];
    rewrite lookup_drop, Nat.add_0_r; split; [done|]; split; congruence).
  - destruct b; [done|]. by destruct (isBodyClose _ _).
  - assert (scanMultiLine b 0 b false = inr (match b with [] => false | _ => isBodyClose b (0 + length b - 1) end)) as E.
    { by rewrite scanMultiLine_range, endOfFolded_at, Hscan. }
    rewrite (scanMultiLine_noMoreReads _ _ E).
    destruct (rd_err r) eqn:Hr; [done|]. intros H.
    apply IH in H as (data & x & Ht & Hd & Hx). exists (rd_data r ++ data), x.
    split; [by apply took_cons|]. by rewrite app_assoc.
Qed.

(** With the body-close sequence anywhere in the buffer the test of
    [readMultiLine] holds at its dot at the latest, so the call returns
    from its first scan: it takes nothing from the transport. *)
Lemma readMultiLine_from_bodyClose rs b s :
  occurs_at bodyClose b s ->
  exists k, k <= s + 2 /\ first_at (foldEndAt b) b k /\
    readMultiLine_from rs b = (Returns (str (take (k - 2) b), None), (rs, drop k b)).
Proof.
  intros Hocc. pose proof (occurs_at_length _ _ _ Hocc ltac:(done)) as Hlen. simpl in Hlen.
  rewrite occurs_at_lookup in Hocc.
  assert (foldEndAt b (s + 2) = true) as Hf.
  { apply foldEndAt_true. rewrite (Hocc 2 DOT eq_refl).
    split; [lia|]. split; [done|]. split; [done|].
    apply occurs_at_lookup. intros [|[|j]] y Hy; simpl in Hy; try done; injection Hy as <-.
    - replace (s + 2 - 2 + 0) with (s + 0) by lia. by apply Hocc.
    - replace (s + 2 - 2 + 1) with (s + 1) by lia. by apply Hocc. }
  destruct (first_at_exists (foldEndAt b) b (s + 2)) as (k & Hk & Hfirst); [lia|done|].
  exists k. split; [done|]. split; [done|]. by apply readMultiLine_from_found.
Qed.

(** ** [readToEndOfBody] *)

Lemma readToEndOfBody_from_found rs b k :
  first_at (isBodyClose b) b k ->
  readToEndOfBody_from rs b = (Returns (str (take (k - 4) b), None), (rs, b)).
Proof.
  intros Hk. rewrite readToEndOfBody_from_eq. apply range_first in Hk. by rewrite Hk.
Qed.

Lemma readToEndOfBody_from_missing rs b :
  (forall j, j < length b -> isBodyClose b j = false) ->
  readToEndOfBody_from rs b =
  match rs with
  | [] => (Blocks, ([], b))
  | r :: rs' =>
      match rd_err r with
      | Some e => (Returns ("", Some e), (rs', b))
      | None => readToEndOfBody_from rs' (b ++ rd_data r)
      end
  end.
Proof.
  intros H. rewrite readToEndOfBody_from_eq. apply range_none in H. by rewrite H.
Qed.

(** On success the payload and the sequence that closed it are still at
    the front of the buffer. *)
Lemma readToEndOfBody_from_keeps rs b p rs' b' :
  readToEndOfBody_from rs b = (Returns (p, None), (rs', b')) ->
  exists rest data, took rs rs' data /\ b' = b ++ data /\
                    b' = bytes p ++ bodyClose ++ rest /\ p <> "".
Proof.
  revert b. induction rs as [|r rs IH]; intros b; rewrite readToEndOfBody_from_eq.
  all: destruct (range_from _ _ _) as [i|] eqn:Hscan.
  all: try (intros [= <- <- <-]; apply range_first in Hscan as (Hi & Hp & _);
    apply isBodyClose_true in Hp as [Hpos Hocc]; exists (drop (i - 4 + 5) b), [];
    split; [apply took_refl|]; split; [by rewrite app_nil_r|];
    rewrite bytes_str; split; [by apply occurs_at_split in Hocc|];
    destruct b as [|x b]; [simpl in Hi; lia|];
    destruct (i - 4) as [|n] eqn:Hn; [lia|]; done).
  - done.
  - destruct (rd_err r) eqn:Hr; [done|]. intros H.
    apply IH in H as (rest & data & Ht & Hb & Hd). exists rest, (rd_data r ++ data).
    split; [by apply took_cons|]. by rewrite app_assoc.
Qed.

(** Fragmentation and exactness: however the bytes are cut into reads,
    [readToEndOfBody] returns what precedes the first body-close
    sequence that starts after the first byte. *)
Lemma readToEndOfBody_from_chunks chunks more b total k :
  b ++ concat chunks = total ->
  first_at (isBodyClose total) total k ->
  exists n,
    readToEndOfBody_from (map RdOk chunks ++ more) b =
    (Returns (str (take (k - 4) total), None),
     (map RdOk (drop n chunks) ++ more, b ++ concat (take n chunks))).
Proof.
  revert b. induction chunks as [|d chunks IH]; intros b Htot Hk.
  - simpl in Htot. rewrite app_nil_r in Htot. subst b. exists 0. simpl.
    rewrite app_nil_r. by apply readToEndOfBody_from_found.
  - simpl in Htot. destruct (decide (k < length b)) as [Hlt|Hge].
    + subst total. pose proof (first_at_app _ _ _ _ isBodyClose_stable Hk Hlt) as Hk'.
      exists 0. rewrite (readToEndOfBody_from_found _ _ _ Hk').
      simpl. rewrite app_nil_r, take_app_le by lia. done.
    + rewrite readToEndOfBody_from_missing.
      2:{ subst total. eapply first_at_later; [apply isBodyClose_stable | apply Hk | lia]. }
      destruct (IH (b ++ d)) as [n Hn]; [by rewrite <- app_assoc | done |].
      exists (S n). simpl. rewrite Hn. by rewrite app_assoc.
Qed.

(** Where the payload is not empty and the sequence after it is the
    first one, the index the scan stops at is that of its last byte. *)
Lemma first_bodyClose payload rest :
  payload <> [] ->
  (forall s, s < length payload -> ~ occurs_at bodyClose (payload ++ bodyClose) s) ->
  first_at (isBodyClose (payload ++ bodyClose ++ rest))
           (payload ++ bodyClose ++ rest) (length payload + 4).
Proof.
  intros Hne Hfirst. split; [rewrite !length_app; simpl; lia|]. split.
  - apply isBodyClose_true. split; [destruct payload; [done|simpl; lia]|].
    replace (length payload + 4 - 4) with (length payload) by lia.
    unfold occurs_at. rewrite drop_app_length. by apply prefix_app_r.
  - intros j Hj. destruct (isBodyClose _ j) eqn:Hc; [|done]. exfalso.
    apply isBodyClose_true in Hc as [Hpos Hocc]. apply (Hfirst (j - 4)); [lia|].
    rewrite app_assoc in Hocc. apply occurs_at_app_l in Hocc; [done|].
    rewrite length_app. simpl. lia.
Qed.

(** ** The claims on the frame reader *)

(** C1 (the code departs from the claim). The claim: with "A\r\nB\r\n"
    buffered from one transport read, two calls of [readLine] return "A"
    and then "B" and no further transport read is made. The code:
    [readLine] calls [conn.Read] before it looks at the buffer. After the
    first call has returned "A" with "B\r\n" left in the buffer, the
    second call reads the transport again; when that read fails it
    returns the error and never "B"; and with both lines buffered and a
    peer that sends nothing more, [readLine] waits for ever. *)
Theorem readLine_reads_before_it_scans :
  let c0 := accepted [RdOk (line "A" ++ line "B"); RdErr EOF] in
  let r1 := readLine c0 in
  let r2 := readLine r1.2 in
  r1.1 = Returns ("A", None) /\ buf r1.2 = line "B" /\
  incoming (conn r1.2) = [RdErr EOF] /\
  r2.1 = Returns ("", Some EOF) /\ incoming (conn r2.2) = [] /\
  (readLine (Connection (peer []) 1 (line "A" ++ line "B"))).1 = Blocks.
Proof. vm_compute. repeat split. Qed.

(** C2 (the code departs from the claim). The claim: every frame
    operation that succeeds takes the payload and its delimiter off the
    front of the buffer, and after [readToEndOfBody] the buffer holds
    neither the payload nor the five closing bytes. The code:
    [readToEndOfBody] does not assign [c.buf]; on "body text\r\n.\r\n"
    it returns "body text" and leaves the connection as it was. *)
Theorem readToEndOfBody_leaves_the_buffer :
  let c := Connection (peer []) 1 (line "body text" ++ line ".") in
  readToEndOfBody 0 c = (Returns ("body text", None), c).
Proof. vm_compute. reflexivity. Qed.




(** C6 (the code departs from the claim). The claim: when the
    body-close sequence is in the unconsumed buffer, [readMultiLine]
    reports the end of the headers by an empty line and the header loop
    does not wait on the transport. The code: on "Subject: hi\r\n.\r\n",
    where the sequence sits at offset 11, the first call returns
    "Subject: hi" and leaves ".\r\n"; the second call finds no end of
    block, its [noMoreReads] is not set, and it waits on the transport. *)
Theorem readMultiLine_bodyClose_is_no_empty_line :
  let c0 := Connection (peer []) 1 (line "Subject: hi" ++ line ".") in
  let r1 := readMultiLine c0 in
  let r2 := readMultiLine r1.2 in
  occurs_at bodyClose (buf c0) 11 /\
  r1.1 = Returns ("Subject: hi", None) /\ buf r1.2 = line "." /\
  r2.1 = Blocks.
Proof. split; [by exists []|]. vm_compute. repeat split. Qed.

(** C8. [readToEndOfBody] ends the body at the five bytes
    "\r\n.\r\n" and nowhere else: when what is buffered and what the
    reads bring, cut into reads at any points, is a payload that is not
    empty, the closing sequence and whatever follows, and the sequence
    occurs nowhere earlier, the call returns that payload. *)
Theorem readToEndOfBody_exact (payload rest b : list ascii) (chunks : list (list ascii))
  (more : list read_result) (ws : list write_result) (w : list ascii) (i : Z) (toRead : Z) :
  payload <> [] ->
  (forall s, s < length payload -> ~ occurs_at bodyClose (payload ++ bodyClose) s) ->
  b ++ concat chunks = payload ++ bodyClose ++ rest ->
  (readToEndOfBody toRead (Connection (mkConn (map RdOk chunks ++ more) ws w) i b)).1
  = Returns (str payload, None).
Proof.
  intros Hne Hfirst Htot. pose proof (first_bodyClose payload rest Hne Hfirst) as Hk.
  destruct (readToEndOfBody_from_chunks chunks more b _ _ Htot Hk) as [n Hn].
  unfold readToEndOfBody. cbn [conn incoming buf]. rewrite Hn. cbn [fst].
  replace (length payload + 4 - 4) with (length payload) by lia.
  by rewrite take_app_length.
Qed.

Lemma readToEndOfBody_exact_witness :
  (readToEndOfBody 0
     (Connection
        (mkConn (map RdOk [line "line1" ++ bytes ".."; crlf ++ bytes "line2" ++ [CR];
                           [LF; DOT; CR]; [LF]] ++ [])
                [] []) 1 (bytes "li"))).1
  = Returns (str (bytes "li" ++ dottedBody), None).
Proof.
  apply (readToEndOfBody_exact (bytes "li" ++ dottedBody) []).
  - discriminate.
  - intros s Hs. unfold occurs_at. apply (bool_decide_eq_false_1 _).
    do 18 (destruct s as [|s]; [vm_compute; reflexivity|]).
    vm_compute in Hs. lia.
  - vm_compute. reflexivity.
Defined.

(** C9 (the code departs from the claim). The claim: the frames do not
    depend on how the input is cut into transport reads. The code:
    "A\r\nB\r\n" sent as one read gives the single frame "A" from
    successive calls of [readLine], sent as the two reads "A\r\n" and
    "B\r\n" it gives "A" and "B"; this holds when the peer then closes
    the stream and when it stays silent. The cause is that of C1. *)
Theorem readLine_frames_depend_on_the_reads :
  readLines 3 (accepted [RdOk (line "A" ++ line "B"); RdErr EOF]) = ["A"] /\
  readLines 3 (accepted [RdOk (line "A"); RdOk (line "B"); RdErr EOF]) = ["A"; "B"] /\
  readLines 3 (accepted [RdOk (line "A" ++ line "B")]) = ["A"] /\
  readLines 3 (accepted [RdOk (line "A"); RdOk (line "B")]) = ["A"; "B"].
Proof. vm_compute. repeat split. Qed.

(** C10. [isBodyClose] holds at indices greater than 4 only, so not
    at index 4, where a closing sequence that starts the buffer ends.
    When the only closing sequence in the buffer is at offset 0,
    [readToEndOfBody] does not return: it makes one more transport read
    and goes on with what that read gives. *)
Theorem readToEndOfBody_skips_bodyClose_at_0 (c : connection) (toRead : Z) :
  occurs_at bodyClose (buf c) 0 ->
  (forall s, 0 < s -> ~ occurs_at bodyClose (buf c) s) ->
  (forall b i, isBodyClose b i = true -> 4 < i) /\
  isBodyClose (buf c) 4 = false /\
  readToEndOfBody toRead c =
  match incoming (conn c) with
  | [] => (Blocks, set_incoming c [])
  | r :: rs =>
      match rd_err r with
      | Some e => (Returns ("", Some e), set_incoming c rs)
      | None => readToEndOfBody toRead (set_buf (set_incoming c rs) (buf c ++ rd_data r))
      end
  end.
Proof.
  intros H0 Hnone. split; [|split].
  - intros b i H. by apply isBodyClose_true in H as [? _].
  - unfold isBodyClose. done.
  - unfold readToEndOfBody. rewrite readToEndOfBody_from_missing.
    + destruct c as [[rs ws w] i b]. cbn [conn incoming buf].
      destruct rs as [|r rs]; [done|]. destruct (rd_err r); done.
    + intros j Hj. destruct (isBodyClose (buf c) j) eqn:E; [|done].
      apply isBodyClose_true in E as [Hpos Hocc]. destruct (Hnone (j - 4)); [lia|done].
Qed.

Lemma readToEndOfBody_skips_bodyClose_at_0_witness :
  isBodyClose bodyClose 4 = false /\
  readToEndOfBody 0 (Connection (peer []) 1 bodyClose)
  = (Blocks, Connection (peer []) 1 bodyClose).
Proof.
  destruct (readToEndOfBody_skips_bodyClose_at_0 (Connection (peer []) 1 bodyClose) 0)
    as (_ & H4 & Hread).
  - by exists [].
  - intros s Hs Hocc. apply occurs_at_length in Hocc; [|done]. simpl in Hocc. lia.
  - split; [exact H4 | exact Hread].
Defined.

(** ** Strings *)

Lemma append_nil s : "" +:+ s = s.
Proof. reflexivity. Qed.

Lemma append_cons c s t : String c s +:+ t = String c (s +:+ t).
Proof. reflexivity. Qed.

Lemma String_prefix_empty s : String.prefix "" s = true.
Proof. by destruct s. Qed.

Lemma HasPrefix_cons c s d t :
  HasPrefix (String c s) (String d t) = bool_decide (d = c) && HasPrefix s t.
Proof.
  unfold HasPrefix. simpl. destruct (ascii_dec d c) as [->|H].
  - by rewrite bool_decide_eq_true_2.
  - by rewrite bool_decide_eq_false_2.
Qed.

Lemma HasPrefix_nil s : HasPrefix s "" = true.
Proof. apply String_prefix_empty. Qed.

Lemma HasPrefix_app s t : HasPrefix (s +:+ t) s = true.
Proof.
  induction s as [|c s IH]; [apply HasPrefix_nil|].
  by rewrite append_cons, HasPrefix_cons, IH, bool_decide_eq_true_2.
Qed.

Lemma sliceTo_app s t : sliceTo (len s) (s +:+ t) = s.
Proof.
  induction s as [|c s IH]; [by destruct t|].
  rewrite append_cons. simpl. by rewrite IH.
Qed.

Lemma sliceFrom_app s t : sliceFrom (len s) (s +:+ t) = t.
Proof.
  induction s as [|c s IH]; [by destruct t|]. rewrite append_cons. simpl. apply IH.
Qed.

Lemma sliceFrom_add n m s : sliceFrom (n + m) s = sliceFrom m (sliceFrom n s).
Proof.
  revert s. induction n as [|n IH]; intros s; simpl.
  - by destruct s.
  - destruct s as [|c s]; simpl; [by destruct m|]. apply IH.
Qed.

Lemma Index_cons c s sep :
  Index (String c s) sep =
  if HasPrefix (String c s) sep then Some 0 else S <$> Index s sep.
Proof. reflexivity. Qed.

Lemma Index_prefix s sep : HasPrefix s sep = true -> Index s sep = Some 0.
Proof. intros H. destruct s; unfold Index; fold Index; by rewrite H. Qed.

Lemma Index_cons_None c s sep :
  Index (String c s) sep = None ->
  HasPrefix (String c s) sep = false /\ Index s sep = None.
Proof.
  rewrite Index_cons. destruct (HasPrefix (String c s) sep); [done|].
  by destruct (Index s sep).
Qed.

Lemma Index_cons_skip c s sep n :
  HasPrefix (String c s) sep = false -> Index s sep = Some n ->
  Index (String c s) sep = Some (S n).
Proof. intros H E. by rewrite Index_cons, H, E. Qed.

(** A key without a colon is cut at the colon that follows it. *)
Lemma Index_colon kw v :
  Index kw ":" = None -> Index (kw +:+ ":" +:+ v) ":" = Some (len kw).
Proof.
  induction kw as [|c kw IH]; intros H.
  - apply Index_prefix. rewrite append_nil. apply (HasPrefix_app ":" v).
  - apply Index_cons_None in H as [Hp Hi]. rewrite append_cons.
    apply Index_cons_skip; [|by apply IH].
    rewrite HasPrefix_cons, HasPrefix_nil in *. done.
Qed.

(** The same for the separator that follows the sender's address. *)
Lemma Index_after pre post :
  Index pre "> " = None -> Index (pre +:+ "> " +:+ post) "> " = Some (len pre).
Proof.
  induction pre as [|c pre IH]; intros H.
  - apply Index_prefix. rewrite append_nil. apply (HasPrefix_app "> " post).
  - apply Index_cons_None in H as [Hp Hi]. rewrite append_cons.
    apply Index_cons_skip; [|by apply IH].
    rewrite HasPrefix_cons in *. destruct (bool_decide (">"%char = c)); [|done].
    rewrite andb_true_l in *. destruct pre as [|c' pre].
    + rewrite append_nil, append_cons, HasPrefix_cons. done.
    + rewrite append_cons. rewrite HasPrefix_cons, HasPrefix_nil in *. done.
Qed.

Lemma SplitN_colon kw v :
  Index kw ":" = None -> SplitN (kw +:+ ":" +:+ v) ":" 2 = [kw; v].
Proof.
  intros H. simpl. rewrite (Index_colon _ _ H). f_equal.
  - apply sliceTo_app.
  - f_equal. rewrite sliceFrom_add, sliceFrom_app. done.
Qed.

Lemma SplitN_after pre post :
  Index pre "> " = None -> SplitN (pre +:+ "> " +:+ post) "> " 2 = [pre; post].
Proof.
  intros H. simpl. rewrite (Index_after _ _ H). f_equal.
  - apply sliceTo_app.
  - f_equal. rewrite sliceFrom_add, sliceFrom_app. done.
Qed.

Lemma SplitN_size s : SplitN ("SIZE=" +:+ s) "SIZE=" 2 = [""; s].
Proof.
  cbv [SplitN]. rewrite (Index_prefix _ _ (HasPrefix_app "SIZE=" s)).
  f_equal.
Qed.

(** ** [Atoi] *)

Lemma digits_cons acc c s :
  digits acc (String c s) =
  match digit c with
  | Some d => digits (10 * acc + d)%Z s
  | None => None
  end.
Proof. reflexivity. Qed.

Lemma digit_digitChar d : d < 10 -> digit (digitChar d) = Some (Z.of_nat d).
Proof.
  intros H. do 10 (destruct d as [|d]; [vm_compute; reflexivity|]). lia.
Qed.

Lemma digit_inv c z : digit c = Some z -> exists d, d < 10 /\ c = digitChar d /\ z = Z.of_nat d.
Proof.
  unfold digit. destruct (_ && _) eqn:E; [|done]. intros [= <-].
  apply andb_true_iff in E as [H1 H2]. apply Nat.leb_le in H1, H2.
  exists (nat_of_ascii c - 48). split; [lia|]. split; [|lia].
  unfold digitChar. replace (48 + (nat_of_ascii c - 48)) with (nat_of_ascii c) by lia.
  by rewrite ascii_nat_embedding.
Qed.

Lemma value_cons d ds :
  value (d :: ds) = (Z.of_nat d * 10 ^ Z.of_nat (length ds) + value ds)%Z.
Proof. reflexivity. Qed.

Lemma digits_numeral ds acc :
  Forall (fun d => d < 10) ds ->
  digits acc (numeral ds) = Some (acc * 10 ^ Z.of_nat (length ds) + value ds)%Z.
Proof.
  intros H. revert acc. induction H as [|d ds Hd H IH]; intros acc.
  - change (Some acc = Some (acc * 1 + 0)%Z). f_equal. lia.
  - change (numeral (d :: ds)) with (String (digitChar d) (numeral ds)).
    rewrite digits_cons, (digit_digitChar _ Hd), IH, value_cons. f_equal.
    change (length (d :: ds)) with (S (length ds)).
    rewrite Nat2Z.inj_succ, Z.pow_succ_r by lia. lia.
Qed.

Lemma digits_inv s acc n :
  digits acc s = Some n -> exists ds, Forall (fun d => d < 10) ds /\ s = numeral ds.
Proof.
  revert acc. induction s as [|c s IH]; intros acc.
  - intros _. by exists [].
  - rewrite digits_cons. destruct (digit c) as [z|] eqn:E; [|done]. intros H.
    apply IH in H as (ds & Hds & ->). apply digit_inv in E as (d & Hd & -> & _).
    exists (d :: ds). split; [by constructor | done].
Qed.

Lemma value_nonneg ds : (0 <= value ds)%Z.
Proof.
  induction ds as [|d ds IH]; [done|]. rewrite value_cons.
  assert (0 <= 10 ^ Z.of_nat (length ds))%Z by (apply Z.pow_nonneg; lia). nia.
Qed.

Lemma numeral_cons d ds : numeral (d :: ds) = String (digitChar d) (numeral ds).
Proof. reflexivity. Qed.

Lemma digitChar_no_sign d :
  d < 10 -> digitChar d <> "-"%char /\ digitChar d <> "+"%char.
Proof. intros H. do 10 (destruct d as [|d]; [by vm_compute|]). lia. Qed.

Lemma len_numeral ds : len (numeral ds) = length ds.
Proof.
  induction ds as [|d ds IH]; [done|]. rewrite numeral_cons.
  change (len (String (digitChar d) (numeral ds))) with (S (len (numeral ds))).
  by rewrite IH.
Qed.

Lemma value_bound ds :
  Forall (fun d => d < 10) ds -> (value ds < 10 ^ Z.of_nat (length ds))%Z.
Proof.
  induction 1 as [|d ds Hd H IH]; [done|]. rewrite value_cons.
  change (length (d :: ds)) with (S (length ds)).
  rewrite Nat2Z.inj_succ, Z.pow_succ_r by lia.
  assert (0 < 10 ^ Z.of_nat (length ds))%Z by (apply Z.pow_pos_nonneg; lia). nia.
Qed.

Lemma value_short ds :
  Forall (fun d => d < 10) ds -> length ds < 19 -> (value ds < 10 ^ 18)%Z.
Proof.
  intros H Hlen. pose proof (value_bound ds H) as Hv.
  assert (10 ^ Z.of_nat (length ds) <= 10 ^ 18)%Z by (apply Z.pow_le_mono_r; lia). lia.
Qed.

Lemma parseUintLoop_cons n c s :
  parseUintLoop n (String c s) =
  match digit c with
  | None => Syntax
  | Some d =>
      if (maxUint64 / 10 + 1 <=? n)%Z then Range
      else if (maxUint64 <? n * 10 + d)%Z then Range
      else parseUintLoop (n * 10 + d)%Z s
  end.
Proof. reflexivity. Qed.

Lemma cutoff_value : (maxUint64 / 10 + 1 = 1844674407370955162)%Z.
Proof. reflexivity. Qed.

Lemma maxUint64_value : maxUint64 = 18446744073709551615%Z.
Proof. reflexivity. Qed.

(** [ParseUint] on a numeral: its number, or a range error when the
    number is above [maxUint64]. *)
Lemma parseUintLoop_numeral ds n :
  Forall (fun d => d < 10) ds -> (0 <= n <= maxUint64)%Z ->
  parseUintLoop n (numeral ds) =
  if (n * 10 ^ Z.of_nat (length ds) + value ds <=? maxUint64)%Z
  then Value (n * 10 ^ Z.of_nat (length ds) + value ds)%Z
  else Range.
Proof.
  intros H. revert n. induction H as [|d ds Hd H IH]; intros n Hn.
  - change (numeral []) with "". cbn [parseUintLoop length value].
    replace (n * 10 ^ Z.of_nat 0 + 0)%Z with n by (simpl; lia).
    by rewrite (proj2 (Z.leb_le _ _)) by lia.
  - rewrite numeral_cons, parseUintLoop_cons, (digit_digitChar _ Hd), value_cons.
    change (length (d :: ds)) with (S (length ds)).
    rewrite Nat2Z.inj_succ, Z.pow_succ_r by lia.
    pose proof (value_nonneg ds) as Hv.
    assert (1 <= 10 ^ Z.of_nat (length ds))%Z as Hp.
    { assert (0 < 10 ^ Z.of_nat (length ds))%Z by (apply Z.pow_pos_nonneg; lia). lia. }
    set (P := (10 ^ Z.of_nat (length ds))%Z) in *. set (V := value ds) in *.
    rewrite cutoff_value, maxUint64_value. rewrite maxUint64_value in Hn.
    assert ((n * 10 + Z.of_nat d) <= (n * 10 + Z.of_nat d) * P)%Z as Hmono by nia.
    replace (n * (10 * P) + (Z.of_nat d * P + V))%Z
      with ((n * 10 + Z.of_nat d) * P + V)%Z by ring.
    destruct (Z.leb_spec 1844674407370955162 n) as [Hc|Hc].
    + destruct (Z.leb_spec ((n * 10 + Z.of_nat d) * P + V) 18446744073709551615); [lia|done].
    + destruct (Z.ltb_spec 18446744073709551615 (n * 10 + Z.of_nat d)) as [Ho|Ho].
      * destruct (Z.leb_spec ((n * 10 + Z.of_nat d) * P + V) 18446744073709551615); [lia|done].
      * rewrite IH by (rewrite maxUint64_value; lia). fold P V. by rewrite maxUint64_value.
Qed.

Lemma parseUintLoop_inv s n v :
  parseUintLoop n s = Value v -> exists ds, Forall (fun d => d < 10) ds /\ s = numeral ds.
Proof.
  revert n. induction s as [|c s IH]; intros n; [by exists []|].
  rewrite parseUintLoop_cons. destruct (digit c) as [z|] eqn:E; [|done].
  destruct (_ <=? _)%Z; [done|]. destruct (_ <? _)%Z; [done|]. intros H.
  apply IH in H as (ds & Hds & ->). apply digit_inv in E as (d & Hd & -> & _).
  exists (d :: ds). split; [by constructor | done].
Qed.

Lemma ParseUint_numeral ds :
  ds <> [] -> Forall (fun d => d < 10) ds ->
  ParseUint (numeral ds) =
  if (value ds <=? maxUint64)%Z then Value (value ds) else Range.
Proof.
  intros Hne H. pose proof (parseUintLoop_numeral ds 0 H) as E.
  rewrite Z.mul_0_l, Z.add_0_l in E. rewrite <- E by (rewrite maxUint64_value; lia).
  destruct ds as [|d ds]; [done|]. by rewrite numeral_cons.
Qed.

Lemma ParseUint_inv s v :
  ParseUint s = Value v ->
  exists ds, ds <> [] /\ Forall (fun d => d < 10) ds /\ s = numeral ds.
Proof.
  destruct s as [|c s]; [done|]. unfold ParseUint. intros H.
  apply parseUintLoop_inv in H as (ds & Hds & E). exists ds.
  split; [by intros ->|done].
Qed.

Lemma ParseInt_cons c u0 :
  ParseInt (String c u0) =
  if bool_decide (c = "+"%char) then checkRange false (ParseUint u0)
  else if bool_decide (c = "-"%char) then checkRange true (ParseUint u0)
  else checkRange false (ParseUint (String c u0)).
Proof.
  unfold ParseInt, checkRange. destruct (bool_decide (c = "+"%char)).
  { by destruct (ParseUint u0). }
  destruct (bool_decide (c = "-"%char)).
  { by destruct (ParseUint u0). }
  by destruct (ParseUint (String c u0)).
Qed.

(** [Atoi] on 1 to 18 bytes. *)
Lemma Atoi_fast c u0 :
  len (String c u0) < 19 ->
  Atoi (String c u0) =
  let sign := bool_decide (c = "-"%char) || bool_decide (c = "+"%char) in
  let u := if sign then u0 else String c u0 in
  if sign && (len u <? 1) then (0%Z, Some (NumError "Atoi" (String c u0) ErrSyntax))
  else
    match digits 0 u with
    | None => (0%Z, Some (NumError "Atoi" (String c u0) ErrSyntax))
    | Some n => ((if bool_decide (c = "-"%char) then - n else n)%Z, None)
    end.
Proof.
  intros H. unfold Atoi. rewrite (proj2 (Nat.ltb_lt _ _) H).
  change (len (String c u0)) with (S (len u0)). done.
Qed.

(** [Atoi] on no byte or on 19 and more. *)
Lemma Atoi_slow s :
  len s = 0 \/ 19 <= len s ->
  Atoi s = ((ParseInt s).1, NumError "Atoi" s <$> (ParseInt s).2).
Proof.
  intros H. unfold Atoi.
  assert ((0 <? len s) && (len s <? 19) = false) as ->.
  { destruct H as [-> | H]; [done|]. rewrite (proj2 (Nat.ltb_ge _ _) H). apply andb_false_r. }
  by destruct (ParseInt s).
Qed.

(** [Atoi] on a numeral with an optional sign: its number when it fits
    an [int], a range error when it does not. *)
Lemma Atoi_signed sg ds :
  ds <> [] -> Forall (fun d => d < 10) ds ->
  let s := signChars sg +:+ numeral ds in
  Atoi s =
  if bool_decide (fits (signed sg (value ds))) then (signed sg (value ds), None)
  else (if sg is Minus then minInt else maxInt, Some (NumError "Atoi" s ErrRange)).
Proof.
  intros Hne H s. pose proof (value_nonneg ds) as H0.
  assert (len s = (if sg is NoSign then 0 else 1) + length ds) as Hlen.
  { unfold s. rewrite <- len_numeral. by destruct sg. }
  destruct ds as [|d ds']; [done|]. set (ds := d :: ds') in *.
  inversion H as [|? ? Hd _]; subst. destruct (digitChar_no_sign d Hd) as [Hm Hp].
  destruct (decide (len s < 19)) as [Hshort|Hlong].
  - assert (value ds < 10 ^ 18)%Z as Hv.
    { apply value_short; [done|]. destruct sg; lia. }
    pose proof (digits_numeral ds 0 H) as Hdig.
    rewrite Z.mul_0_l, Z.add_0_l in Hdig.
    rewrite bool_decide_eq_true_2
      by (unfold fits, minInt, maxInt; destruct sg; cbn [signed]; lia).
    destruct sg; unfold s, signChars in *.
    + rewrite append_nil in *. unfold ds in *. rewrite numeral_cons in *.
      rewrite Atoi_fast by done. cbv zeta.
      rewrite !bool_decide_eq_false_2 by done. cbn [orb andb]. by rewrite Hdig.
    + change ("+" +:+ numeral ds) with (String "+" (numeral ds)) in *.
      rewrite Atoi_fast by done. cbv zeta.
      rewrite (bool_decide_eq_false_2 ("+"%char = "-"%char)) by done.
      rewrite (bool_decide_eq_true_2 ("+"%char = "+"%char)) by done. cbn [orb andb].
      rewrite len_numeral. change (length ds <? 1) with false. cbv iota. by rewrite Hdig.
    + change ("-" +:+ numeral ds) with (String "-" (numeral ds)) in *.
      rewrite Atoi_fast by done. cbv zeta.
      rewrite (bool_decide_eq_true_2 ("-"%char = "-"%char)) by done. cbn [orb andb].
      rewrite len_numeral. change (length ds <? 1) with false. cbv iota. by rewrite Hdig.
  - rewrite Atoi_slow by lia.
    assert (ParseInt s = checkRange (if sg is Minus then true else false)
                                    (ParseUint (numeral ds))) as ->.
    { destruct sg; unfold s, signChars.
      - rewrite append_nil. unfold ds. rewrite numeral_cons, ParseInt_cons.
        by rewrite !bool_decide_eq_false_2 by done.
      - change ("+" +:+ numeral ds) with (String "+" (numeral ds)).
        by rewrite ParseInt_cons, bool_decide_eq_true_2.
      - change ("-" +:+ numeral ds) with (String "-" (numeral ds)).
        rewrite ParseInt_cons, bool_decide_eq_false_2 by done.
        by rewrite bool_decide_eq_true_2. }
    rewrite (ParseUint_numeral ds Hne H). unfold checkRange, fits.
    rewrite maxUint64_value. unfold minInt, maxInt.
    destruct (Z.leb_spec (value ds) 18446744073709551615) as [Hu|Hu];
      destruct sg; cbn [negb andb signed]; cbv zeta;
      repeat match goal with
      | |- context [(?a <=? ?b)%Z] => destruct (Z.leb_spec a b)
      | |- context [(?a <? ?b)%Z] => destruct (Z.ltb_spec a b)
      end; try lia; cbn [fst snd fmap option_fmap option_map];
      case_bool_decide; try lia; done.
Qed.


Lemma checkRange_error neg r :
  (forall v, r <> Value v) -> exists v cause, checkRange neg r = (v, Some cause).
Proof.
  intros H. destruct r as [v| |]; [by destruct (H v) | by eexists _, _|].
  destruct neg; by eexists _, _.
Qed.

Lemma numeral_nil_inv ds : numeral ds = "" -> ds = [].
Proof. by destruct ds. Qed.

(** What is not a numeral with an optional sign is an error of [Atoi]:
    a syntax error, or, on 19 bytes and more, a range error when the
    digits before the byte that is no digit are already too many. *)
Lemma Atoi_not_numeral s :
  ~ signedNumeral s ->
  exists (v : Z) (cause : num_cause),
    Atoi s = (v, Some (NumError "Atoi" s cause)) /\ (len s < 19 -> cause = ErrSyntax).
Proof.
  intros Hs. destruct s as [|c u0].
  { rewrite Atoi_slow by (by left). by eexists _, _. }
  destruct (decide (len (String c u0) < 19)) as [Hshort|Hlong].
  - rewrite Atoi_fast by done. cbv zeta.
    destruct (bool_decide (c = "-"%char)) eqn:Em;
      [|destruct (bool_decide (c = "+"%char)) eqn:Ep]; cbn [orb andb].
    + apply bool_decide_eq_true_1 in Em as ->.
      destruct (len u0 <? 1) eqn:El; [by eexists _, _|].
      destruct (digits 0 u0) as [n|] eqn:E; [|by eexists _, _]. exfalso.
      apply digits_inv in E as (ds & Hds & ->). apply Hs. exists Minus, ds.
      split; [|done]. intros ->. done.
    + apply bool_decide_eq_true_1 in Ep as ->.
      destruct (len u0 <? 1) eqn:El; [by eexists _, _|].
      destruct (digits 0 u0) as [n|] eqn:E; [|by eexists _, _]. exfalso.
      apply digits_inv in E as (ds & Hds & ->). apply Hs. exists Plus, ds.
      split; [|done]. intros ->. done.
    + destruct (digits 0 (String c u0)) as [n|] eqn:E; [|by eexists _, _]. exfalso.
      apply digits_inv in E as (ds & Hds & E). apply Hs. exists NoSign, ds.
      split; [|by rewrite append_nil]. intros ->. done.
  - rewrite Atoi_slow by lia. rewrite ParseInt_cons.
    assert (forall neg u,
      (forall ds, ds <> [] -> Forall (fun d => d < 10) ds -> u <> numeral ds) ->
      exists v cause,
        ((checkRange neg (ParseUint u)).1,
         NumError "Atoi" (String c u0) <$> (checkRange neg (ParseUint u)).2)
        = (v, Some (NumError "Atoi" (String c u0) cause)) /\
        (len (String c u0) < 19 -> cause = ErrSyntax)) as Hcheck.
    { intros neg u Hu. destruct (checkRange_error neg (ParseUint u)) as (v & cause & E).
      - intros v E. apply ParseUint_inv in E as (ds & Hne & Hds & E). by apply (Hu ds).
      - rewrite E. by exists v, cause. }
    destruct (bool_decide (c = "+"%char)) eqn:Ep;
      [|destruct (bool_decide (c = "-"%char)) eqn:Em].
    + apply bool_decide_eq_true_1 in Ep as ->. apply Hcheck. intros ds Hne Hds ->.
      apply Hs. by exists Plus, ds.
    + apply bool_decide_eq_true_1 in Em as ->. apply Hcheck. intros ds Hne Hds ->.
      apply Hs. by exists Minus, ds.
    + apply Hcheck. intros ds Hne Hds E. apply Hs. exists NoSign, ds.
      by rewrite append_nil.
Qed.

(** A numeral with an optional sign that does not fit an [int] is a
    range error of [Atoi]. *)
Lemma Atoi_range sg ds :
  ds <> [] -> Forall (fun d => d < 10) ds -> ~ fits (signed sg (value ds)) ->
  Atoi (signChars sg +:+ numeral ds)
  = (if sg is Minus then minInt else maxInt,
     Some (NumError "Atoi" (signChars sg +:+ numeral ds) ErrRange)).
Proof.
  intros Hne Hds Hfit. pose proof (Atoi_signed sg ds Hne Hds) as E. cbv zeta in E.
  by rewrite E, bool_decide_eq_false_2.
Qed.

(** A numeral with an optional sign that fits an [int]. *)
Lemma Atoi_fits sg ds :
  ds <> [] -> Forall (fun d => d < 10) ds -> fits (signed sg (value ds)) ->
  Atoi (signChars sg +:+ numeral ds) = (signed sg (value ds), None).
Proof.
  intros Hne Hds Hfit. pose proof (Atoi_signed sg ds Hne Hds) as E. cbv zeta in E.
  by rewrite E, bool_decide_eq_true_2.
Qed.

(** ** The claims on the dialogue *)

(** C4 (the code departs from the claim). The claim: a first line that
    does not begin with "EHLO" and a space is refused. The code tests the
    prefix "EHLO" and then cuts the line after five bytes: the line
    "EHLO" makes [handle] panic on the slice, and "EHLOXmail.example" is
    accepted with the client domain "mail.example". *)
Theorem handle_EHLO_without_space :
  (handleASCII (accepted [RdOk (line "EHLO")])).1 = Panics (SliceOutOfRange 5 4) /\
  exists m size c,
    handleASCII (accepted [RdOk (line "EHLOXmail.example"); RdOk (line "DATA");
                           RdOk (line "" ++ line "hello" ++ line ".")])
    = (Returns (Completed m size), c) /\
    clientDomain m = "mail.example".
Proof.
  split; [vm_compute; reflexivity|].
  eexists _, _, _. split; [vm_compute; reflexivity | reflexivity].
Qed.

(** C5 (the code departs from the claim). The claim: a command line
    that is not DATA and has no colon is a failure that [handle] returns.
    The code indexes [pieces[1]] without a test: on the line "QUIT"
    [handle] panics, index out of range [1] with length 1. *)
Theorem handle_command_without_colon :
  (handleASCII (accepted [RdOk (line "EHLO x"); RdOk (line "QUIT")])).1
  = Panics (IndexOutOfRange 1 1).
Proof. vm_compute. reflexivity. Qed.

(** C7, counterexample. [strconv.Atoi] is applied to all that follows
    "SIZE=", and only right after the first "> ": the value
    "<user@mail.com> SIZE=3000 BODY=8BITMIME" has the token "SIZE=3000"
    and [handle] gives up on it with a syntax error; the numeric suffix
    of "SIZE=9223372036854775808" is no [int] and [handle] gives up with
    a range error; and the token "SIZE=3000" after another parameter
    leaves the declared size 0. *)
Lemma handle_SIZE_with_more_parameters :
  (handleASCII
     (accepted [RdOk (line "EHLO x");
                RdOk (line "MAIL FROM:<user@mail.com> SIZE=3000 BODY=8BITMIME")])).1
  = Returns (Failed (NumError "Atoi" "3000 BODY=8BITMIME" ErrSyntax)) /\
  (handleASCII
     (accepted [RdOk (line "EHLO x");
                RdOk (line "MAIL FROM:<user@mail.com> SIZE=9223372036854775808")])).1
  = Returns (Failed (NumError "Atoi" "9223372036854775808" ErrRange)) /\
  exists m,
    (handleASCII
       (accepted [RdOk (line "EHLO x");
                  RdOk (line "MAIL FROM:<user@mail.com> BODY=8BITMIME SIZE=3000");
                  RdOk (line "DATA");
                  RdOk (line "" ++ line "hello" ++ line ".")])).1
    = Returns (Completed m 0).
Proof.
  split; [vm_compute; reflexivity|]. split; [vm_compute; reflexivity|].
  eexists. vm_compute. reflexivity.
Qed.

Lemma bind_ret {A B : Type} (a : A) (k : A -> M B) c : bind (ret a) k c = k a c.
Proof. reflexivity. Qed.

Lemma bind_returns {A B : Type} (m : M A) (k : A -> M B) c a c' :
  m c = (Returns a, c') -> bind m k c = k a c'.
Proof. intros H. unfold bind. by rewrite H. Qed.

Section DialogueFacts.

Variable unicodeUpper : string -> string.

Lemma interpret_mail_from kw v msg size c :
  ToUpper unicodeUpper kw = "MAIL FROM" -> Index kw ":" = None ->
  interpret unicodeUpper (kw +:+ ":" +:+ v) msg size c =
  (let* afterFrom := index (SplitN v "> " 2) 1 in
   if HasPrefix afterFrom "SIZE=" then
     let* afterEq := index (SplitN afterFrom "SIZE=" 2) 1 in
     match Atoi afterEq with
     | (_, Some e) => ret (Rejected e)
     | (n, None) => ret (Stored (set_smtpHeader msg "MAIL FROM" v) n)
     end
   else ret (Stored (set_smtpHeader msg "MAIL FROM" v) size)) c.
Proof.
  intros Hkw Hcolon. unfold interpret. rewrite (SplitN_colon _ _ Hcolon).
  change (index [kw; v] 0) with (@ret string kw). rewrite bind_ret, Hkw.
  rewrite decide_False by done.
  change (index [kw; v] 1) with (@ret string v). rewrite bind_ret.
  rewrite decide_True by done. done.
Qed.

Lemma interpret_SIZE kw pre s msg size c :
  ToUpper unicodeUpper kw = "MAIL FROM" -> Index kw ":" = None ->
  Index pre "> " = None ->
  let v := pre +:+ "> " +:+ "SIZE=" +:+ s in
  interpret unicodeUpper (kw +:+ ":" +:+ v) msg size c =
  match Atoi s with
  | (_, Some e) => (Returns (Rejected e), c)
  | (n, None) => (Returns (Stored (set_smtpHeader msg "MAIL FROM" v) n), c)
  end.
Proof.
  intros Hkw Hcolon Hpre v. unfold v.
  rewrite (interpret_mail_from _ _ _ _ _ Hkw Hcolon), (SplitN_after _ _ Hpre).
  change (index [pre; "SIZE=" +:+ s] 1) with (@ret string ("SIZE=" +:+ s)).
  rewrite bind_ret, (HasPrefix_app "SIZE=" s), SplitN_size.
  change (index [""; s] 1) with (@ret string s).
  rewrite bind_ret. by destruct (Atoi s) as [n [e|]].
Qed.

(** A rejected line ends the command loop with the failure. *)
Lemma commandLoop_rejected fuel last l e msg size c0 c :
  last <> "" ->
  readLine c0 = (Returns (l, None), c) ->
  interpret unicodeUpper l msg size c = (Returns (Rejected e), c) ->
  commandLoop unicodeUpper (S fuel) last msg size c0 = (Returns (inl (Failed e)), c).
Proof.
  intros Hlast Hread E. unfold commandLoop; fold commandLoop.
  rewrite decide_False by done.
  rewrite (bind_returns _ _ _ _ _ Hread). cbv beta iota.
  by rewrite (bind_returns _ _ _ _ _ E).
Qed.

(** C7, amended. For a MAIL FROM line whose value is an address, "> "
    and a rest. When the rest is "SIZE=" and a decimal numeral, with or
    without a sign, that ends the line and fits an [int] (of 64 bits),
    the command is stored and the declared size is the number, negative
    after "-". When the rest does not begin with "SIZE=" the command is
    stored and the size is left as it was (0 at first). When the rest is
    "SIZE=" and such a numeral outside the range of an [int], the line is
    rejected with the range error of [strconv.Atoi]; when it is "SIZE="
    and anything else (nothing, a sign alone, text with a byte that is
    no digit, a number followed by more parameters), the line is
    rejected with an error of [strconv.Atoi], a syntax error whenever
    that text has fewer than 19 bytes. A rejected line makes the command
    loop, and so [handle], return that failure. *)
Theorem interpret_MAIL_FROM_SIZE (kw pre : string) (msg : message) (size : Z)
  (c : connection) :
  ToUpper unicodeUpper kw = "MAIL FROM" ->
  Index kw ":" = None ->
  Index pre "> " = None ->
  (forall sg ds, ds <> [] -> Forall (fun d => d < 10) ds ->
     fits (signed sg (value ds)) ->
     let v := pre +:+ "> " +:+ "SIZE=" +:+ signChars sg +:+ numeral ds in
     interpret unicodeUpper (kw +:+ ":" +:+ v) msg size c
     = (Returns (Stored (set_smtpHeader msg "MAIL FROM" v) (signed sg (value ds))), c)) /\
  (forall post, HasPrefix post "SIZE=" = false ->
     let v := pre +:+ "> " +:+ post in
     interpret unicodeUpper (kw +:+ ":" +:+ v) msg size c
     = (Returns (Stored (set_smtpHeader msg "MAIL FROM" v) size), c)) /\
  (forall sg ds fuel last c0, ds <> [] -> Forall (fun d => d < 10) ds ->
     ~ fits (signed sg (value ds)) -> last <> "" ->
     let s := signChars sg +:+ numeral ds in
     let v := pre +:+ "> " +:+ "SIZE=" +:+ s in
     interpret unicodeUpper (kw +:+ ":" +:+ v) msg size c
     = (Returns (Rejected (NumError "Atoi" s ErrRange)), c) /\
     (readLine c0 = (Returns (kw +:+ ":" +:+ v, None), c) ->
      commandLoop unicodeUpper (S fuel) last msg size c0
      = (Returns (inl (Failed (NumError "Atoi" s ErrRange))), c))) /\
  (forall s fuel last c0, ~ signedNumeral s -> last <> "" ->
     let v := pre +:+ "> " +:+ "SIZE=" +:+ s in
     exists cause,
       (len s < 19 -> cause = ErrSyntax) /\
       interpret unicodeUpper (kw +:+ ":" +:+ v) msg size c
       = (Returns (Rejected (NumError "Atoi" s cause)), c) /\
       (readLine c0 = (Returns (kw +:+ ":" +:+ v, None), c) ->
        commandLoop unicodeUpper (S fuel) last msg size c0
        = (Returns (inl (Failed (NumError "Atoi" s cause))), c))).
Proof.
  intros Hkw Hcolon Hpre. split; [|split; [|split]].
  - intros sg ds Hne Hds Hfit v. unfold v.
    rewrite (interpret_SIZE _ _ _ _ _ _ Hkw Hcolon Hpre).
    by rewrite (Atoi_fits _ _ Hne Hds Hfit).
  - intros post Hpost v. unfold v.
    rewrite (interpret_mail_from _ _ _ _ _ Hkw Hcolon), (SplitN_after _ _ Hpre).
    change (index [pre; post] 1) with (@ret string post).
    rewrite bind_ret, Hpost. done.
  - intros sg ds fuel last c0 Hne Hds Hfit Hlast s v.
    assert (interpret unicodeUpper (kw +:+ ":" +:+ v) msg size c
            = (Returns (Rejected (NumError "Atoi" s ErrRange)), c)) as E.
    { unfold v. rewrite (interpret_SIZE _ _ _ _ _ _ Hkw Hcolon Hpre).
      unfold s. by rewrite (Atoi_range _ _ Hne Hds Hfit). }
    split; [done|]. intros Hread. by apply (commandLoop_rejected _ _ _ _ _ _ _ _ Hlast Hread).
  - intros s fuel last c0 Hs Hlast v.
    destruct (Atoi_not_numeral _ Hs) as (n & cause & Ea & Hcause).
    assert (interpret unicodeUpper (kw +:+ ":" +:+ v) msg size c
            = (Returns (Rejected (NumError "Atoi" s cause)), c)) as E.
    { unfold v. rewrite (interpret_SIZE _ _ _ _ _ _ Hkw Hcolon Hpre). by rewrite Ea. }
    exists cause. split; [done|]. split; [done|].
    intros Hread. by apply (commandLoop_rejected _ _ _ _ _ _ _ _ Hlast Hread).
Qed.

End DialogueFacts.

Lemma interpret_MAIL_FROM_SIZE_witness :
  let m := Message "" ∅ ∅ "" "" "" "" "" in
  let c := accepted [] in
  interpret unreached "MAIL FROM:<user@mail.com> SIZE=3000" m 0 c
  = (Returns (Stored (set_smtpHeader m "MAIL FROM" "<user@mail.com> SIZE=3000") 3000), c) /\
  interpret unreached "MAIL FROM:<user@mail.com> SIZE=-25" m 0 c
  = (Returns (Stored (set_smtpHeader m "MAIL FROM" "<user@mail.com> SIZE=-25") (-25)), c) /\
  interpret unreached "MAIL FROM:<user@mail.com> BODY=8BITMIME" m 0 c
  = (Returns (Stored (set_smtpHeader m "MAIL FROM" "<user@mail.com> BODY=8BITMIME") 0), c) /\
  interpret unreached "MAIL FROM:<user@mail.com> SIZE=9223372036854775808" m 0 c
  = (Returns (Rejected (NumError "Atoi" "9223372036854775808" ErrRange)), c) /\
  interpret unreached "MAIL FROM:<user@mail.com> SIZE=big" m 0 c
  = (Returns (Rejected (NumError "Atoi" "big" ErrSyntax)), c).
Proof.
  intros m c.
  destruct (interpret_MAIL_FROM_SIZE unreached "MAIL FROM" "<user@mail.com" m 0 c)
    as (Ha & Hb & Hc & Hd); [reflexivity | reflexivity | reflexivity |].
  split; [|split; [|split; [|split]]].
  - apply (Ha NoSign [3; 0; 0; 0] ltac:(discriminate));
      [repeat constructor | vm_compute; split; discriminate].
  - apply (Ha Minus [2; 5] ltac:(discriminate));
      [repeat constructor | vm_compute; split; discriminate].
  - apply (Hb "BODY=8BITMIME"). reflexivity.
  - apply (Hc NoSign [9; 2; 2; 3; 3; 7; 2; 0; 3; 6; 8; 5; 4; 7; 7; 5; 8; 0; 8] 0 "EHLO" c
             ltac:(discriminate));
      [repeat constructor | vm_compute; intros [_ H]; by apply H | discriminate].
  - destruct (Hd "big" 0 "EHLO" c) as (cause & Hcause & E & _); [|discriminate|].
    + intros (sg & ds & Hne & Hds & E). destruct ds as [|d ds]; [done|].
      inversion Hds as [|? ? Hd' _]; subst.
      rewrite numeral_cons in E.
      assert ("b"%char = digitChar d) as Eb.
      { destruct sg; cbn [signChars] in E; rewrite ?append_cons, ?append_nil in E;
          by injection E. }
      apply (f_equal digit) in Eb. rewrite (digit_digitChar _ Hd') in Eb.
      vm_compute in Eb. discriminate.
    + rewrite Hcause in E by (vm_compute; lia). exact E.
Defined.

(** ** [writeLn] *)

Lemma writeLn_from_sent ws msg w r ws' w' :
  writeLn_from ws msg w = (r, (ws', w')) ->
  exists sent, w' = w ++ sent /\ sent `prefix_of` msg /\
    (r = Returns None -> sent = msg) /\
    ((exists e, r = Returns e) \/ r = Blocks).
Proof.
  revert msg w r ws' w'.
  induction ws as [|x ws IH]; intros msg w r ws' w' H; destruct msg as [|a msg].
  - injection H as <- <- <-. exists []. rewrite app_nil_r. eauto 6.
  - injection H as <- <- <-. exists []. rewrite app_nil_r.
    split; [done|]. split; [apply prefix_nil|]. split; [done|]. by right.
  - injection H as <- <- <-. exists []. rewrite app_nil_r. eauto 6.
  - remember (a :: msg) as m eqn:Hm. 
    assert (writeLn_from (x :: ws) m w =
            let n := wr_max x `min` length m in
            match wr_err x with
            | Some e => (Returns (Some e), (ws, w ++ take n m))
            | None => writeLn_from ws (drop n m) (w ++ take n m)
            end) as E by (subst m; reflexivity).
    rewrite E in H. clear E. cbv zeta in H.
    set (n := wr_max x `min` length m) in *. destruct (wr_err x) as [e|].
    + injection H as <- <- <-. exists (take n m).
      split; [done|]. split; [apply prefix_take|]. split; [done|]. eauto.
    + apply IH in H as (sent & -> & [k Hk] & Hfull & Hr).
      exists (take n m ++ sent). split; [by rewrite app_assoc|]. split.
      * exists k. by rewrite <- app_assoc, <- Hk, take_drop.
      * split; [|done]. intros E. rewrite (Hfull E). apply take_drop.
Qed.

(** X11. [writeLn] returns or waits on the transport, it does nothing
    else. It leaves the buffer, the id and the reads alone. What it has
    put on the wire is a prefix of the message followed by CRLF, and it
    is all of it when [writeLn] returns no error. *)
Theorem writeLn_wire (msg : string) (c c' : connection) (r : run (option error)) :
  writeLn msg c = (r, c') ->
  buf c' = buf c /\ id c' = id c /\ incoming (conn c') = incoming (conn c) /\
  ((exists e, r = Returns e) \/ r = Blocks) /\
  exists sent, wire (conn c') = wire (conn c) ++ sent /\
    sent `prefix_of` bytes msg ++ crlf /\
    (r = Returns None -> sent = bytes msg ++ crlf).
Proof.
  unfold writeLn.
  destruct (writeLn_from _ _ _) as [r0 [ws w]] eqn:E. intros [= <- <-]. cbn.
  apply writeLn_from_sent in E as (sent & -> & Hp & Hfull & Hr).
  do 3 (split; [done|]). split; [done|]. by exists sent.
Qed.

Lemma writeLn_wire_witness :
  let c := Connection (mkConn [] [Wr 3 None; Wr 9 (Some (NetError "broken pipe"))] []) 1 [] in
  let r := writeLn "250 OK" c in
  buf r.2 = buf c /\ id r.2 = id c /\ incoming (conn r.2) = incoming (conn c) /\
  ((exists e, r.1 = Returns e) \/ r.1 = Blocks) /\
  exists sent, wire (conn r.2) = wire (conn c) ++ sent /\
    sent `prefix_of` bytes "250 OK" ++ crlf /\
    (r.1 = Returns None -> sent = bytes "250 OK" ++ crlf).
Proof.
  intros c r. apply (writeLn_wire "250 OK" c r.2 r.1). apply surjective_pairing.
Defined.

Lemma writeLn_from_progress ws msg w :
  Forall (fun x => wr_err x = None /\ 0 < wr_max x) ws ->
  length msg <= length ws ->
  exists ws', (writeLn_from ws msg w) = (Returns None, (ws', w ++ msg)).
Proof.
  intros H. revert msg w. induction H as [|x ws [Hx Hn] H IH]; intros msg w Hlen.
  - destruct msg; [|simpl in Hlen; lia]. exists []. by rewrite app_nil_r.
  - destruct msg as [|a msg]; [exists (x :: ws); by rewrite app_nil_r|].
    remember (a :: msg) as m eqn:Hm.
    assert (writeLn_from (x :: ws) m w =
            let n := wr_max x `min` length m in
            match wr_err x with
            | Some e => (Returns (Some e), (ws, w ++ take n m))
            | None => writeLn_from ws (drop n m) (w ++ take n m)
            end) as E by (subst m; reflexivity).
    rewrite E, Hx. clear E. cbv zeta.
    set (n := wr_max x `min` length m).
    destruct (IH (drop n m) (w ++ take n m)) as [ws' E].
    { rewrite length_drop. subst m n. simpl in *. lia. }
    exists ws'. rewrite E. by rewrite <- app_assoc, take_drop.
Qed.

Lemma length_bytes s : length (bytes s) = len s.
Proof.
  induction s as [|a s IH]; [done|]. unfold bytes, len in *. simpl. by rewrite IH.
Qed.

(** X12. Short writes: when no write to come fails, each takes at least
    one byte, and there are as many of them as the message and its CRLF
    have bytes, [writeLn] returns no error and the message and its CRLF
    are on the wire. *)
Theorem writeLn_short_writes (msg : string) (c : connection) :
  Forall (fun x => wr_err x = None /\ 0 < wr_max x) (outgoing (conn c)) ->
  len msg + 2 <= length (outgoing (conn c)) ->
  exists c', writeLn msg c = (Returns None, c') /\
    wire (conn c') = wire (conn c) ++ bytes msg ++ crlf.
Proof.
  intros H Hlen. unfold writeLn.
  destruct (writeLn_from_progress _ (bytes msg ++ crlf) (wire (conn c)) H) as [ws' E].
  { rewrite length_app, length_bytes. simpl. lia. }
  rewrite E. eexists. split; [reflexivity|]. done.
Qed.

Lemma writeLn_short_writes_witness :
  exists c', writeLn "354" (Connection (mkConn [] (repeat (Wr 2 None) 5) []) 1 []) = (Returns None, c') /\
    wire (conn c') = [] ++ bytes "354" ++ crlf.
Proof.
  apply (writeLn_short_writes "354" (Connection (mkConn [] (repeat (Wr 2 None) 5) []) 1 [])).
  - repeat constructor.
  - vm_compute. lia.
Defined.

(** ** The bound on the loops of [handle] *)

Lemma cost_cons x rs : cost (x :: rs) = S (length (rd_data x)) + cost rs.
Proof. reflexivity. Qed.

Lemma readLine_from_budget rs b r rs' b' :
  readLine_from rs b = (Returns r, (rs', b')) ->
  length b' + cost rs' < length b + cost rs.
Proof.
  revert b. induction rs as [|x rs IH]; intros b; [done|].
  unfold readLine_from; fold readLine_from. rewrite cost_cons.
  destruct (rd_err x).
  - intros [= _ <- <-]. lia.
  - cbv zeta. destruct (range_from _ _ _).
    + intros [= _ <- <-]. rewrite length_drop, length_app. lia.
    + intros H. apply IH in H. rewrite length_app in H. lia.
Qed.

Lemma readMultiLine_from_budget rs b r rs' b' :
  readMultiLine_from rs b = (Returns r, (rs', b')) ->
  length b' + cost rs' < length b + cost rs.
Proof.
  revert b. induction rs as [|x rs IH]; intros b; rewrite readMultiLine_from_eq;
    destruct (scanMultiLine b 0 b false) as [i|v] eqn:E.
  all: try (intros [= _ <- <-]; rewrite scanMultiLine_range, endOfFolded_at in E;
            destruct (range_from _ _ _) as [k|] eqn:Hk; [|done]; injection E as ->;
            apply range_first in Hk as (Hlt & Hp & _);
            apply foldEndAt_true in Hp as [Hpos _]; rewrite length_drop; lia).
  - by destruct v.
  - rewrite (scanMultiLine_noMoreReads _ _ E).
    rewrite cost_cons. destruct (rd_err x).
    + intros [= _ <- <-]. lia.
    + intros H. apply IH in H. rewrite length_app in H. lia.
Qed.

Lemma readLine_budget c r c' :
  readLine c = (Returns r, c') -> budget c' < budget c.
Proof.
  unfold readLine. destruct (readLine_from _ _) as [r0 [rs b]] eqn:E.
  intros [= -> <-]. apply readLine_from_budget in E. unfold budget. cbn. exact E.
Qed.

Lemma readMultiLine_budget c r c' :
  readMultiLine c = (Returns r, c') -> budget c' < budget c.
Proof.
  unfold readMultiLine. destruct (readMultiLine_from _ _) as [r0 [rs b]] eqn:E.
  intros [= -> <-]. apply readMultiLine_from_budget in E. unfold budget. cbn. exact E.
Qed.

Lemma writeLn_budget msg c r c' : writeLn msg c = (r, c') -> budget c' = budget c.
Proof.
  unfold writeLn. destruct (writeLn_from _ _ _) as [r0 [ws w]]. by intros [= _ <-].
Qed.

Lemma readLine_from_fueled rs b : (readLine_from rs b).1 <> OutOfFuel.
Proof.
  revert b. induction rs as [|x rs IH]; intros b; [done|].
  unfold readLine_from; fold readLine_from. destruct (rd_err x); [done|].
  cbv zeta. destruct (range_from _ _ _); [done | apply IH].
Qed.

Lemma readMultiLine_from_fueled rs b : (readMultiLine_from rs b).1 <> OutOfFuel.
Proof.
  revert b. induction rs as [|x rs IH]; intros b; rewrite readMultiLine_from_eq;
    destruct (scanMultiLine b 0 b false) as [i|[]]; try done.
  destruct (rd_err x); [done | apply IH].
Qed.

Lemma readToEndOfBody_from_fueled rs b : (readToEndOfBody_from rs b).1 <> OutOfFuel.
Proof.
  revert b. induction rs as [|x rs IH]; intros b; rewrite readToEndOfBody_from_eq;
    destruct (range_from _ _ _); try done.
  destruct (rd_err x); [done | apply IH].
Qed.

Lemma readLine_fueled c : (readLine c).1 <> OutOfFuel.
Proof.
  unfold readLine. pose proof (readLine_from_fueled (incoming (conn c)) (buf c)).
  by destruct (readLine_from _ _) as [r [rs b]].
Qed.

Lemma readMultiLine_fueled c : (readMultiLine c).1 <> OutOfFuel.
Proof.
  unfold readMultiLine. pose proof (readMultiLine_from_fueled (incoming (conn c)) (buf c)).
  by destruct (readMultiLine_from _ _) as [r [rs b]].
Qed.

Lemma readToEndOfBody_fueled n c : (readToEndOfBody n c).1 <> OutOfFuel.
Proof.
  unfold readToEndOfBody. pose proof (readToEndOfBody_from_fueled (incoming (conn c)) (buf c)).
  by destruct (readToEndOfBody_from _ _) as [r [rs b]].
Qed.

Lemma writeLn_fueled msg c : (writeLn msg c).1 <> OutOfFuel.
Proof.
  unfold writeLn. destruct (writeLn_from _ _ _) as [r [ws w]] eqn:E.
  apply writeLn_from_sent in E as (_ & _ & _ & _ & [[e ->] | ->]); done.
Qed.

Lemma bind_out_of_fuel {A B : Type} (m : M A) (k : A -> M B) c :
  (bind m k c).1 = OutOfFuel ->
  (m c).1 = OutOfFuel \/ exists a c', m c = (Returns a, c') /\ (k a c').1 = OutOfFuel.
Proof.
  unfold bind. destruct (m c) as [[a| | | |] c']; try done; eauto.
Qed.

Lemma writeSettings_fueled l c : (writeSettings l c).1 <> OutOfFuel.
Proof.
  revert c. induction l as [|s l IH]; intros c; [done|].
  unfold writeSettings; fold writeSettings. intros H.
  apply bind_out_of_fuel in H as [H | (a & c' & _ & H)].
  - by apply writeLn_fueled in H.
  - destruct a; [done | by apply IH in H].
Qed.

Lemma writeSettings_budget l c r c' : writeSettings l c = (r, c') -> budget c' = budget c.
Proof.
  revert c. induction l as [|s l IH]; intros c; [by intros [= _ <-]|].
  unfold writeSettings; fold writeSettings. unfold bind.
  destruct (writeLn _ c) as [[a| | | |] c1] eqn:E; apply writeLn_budget in E;
    try (intros [= _ <-]; done).
  destruct a; [by intros [= _ <-]|]. intros H. apply IH in H. lia.
Qed.

Lemma pure_ret {A : Type} (a : A) : pure (ret a).
Proof. done. Qed.

Lemma pure_throw {A : Type} p : pure (@throw A p).
Proof. done. Qed.

Lemma pure_bind {A B : Type} (m : M A) (k : A -> M B) :
  pure m -> (forall a, pure (k a)) -> pure (bind m k).
Proof.
  intros Hm Hk c. unfold bind. destruct (Hm c) as [H1 H2].
  destruct (m c) as [[a| | | |] c']; simpl in *; subst; try done. apply Hk.
Qed.

Lemma pure_index l i : pure (index l i).
Proof. unfold index. destruct (l !! i); [apply pure_ret | apply pure_throw]. Qed.

Lemma pure_slice s n : pure (slice s n).
Proof. unfold slice. destruct (n <=? len s); [apply pure_ret | apply pure_throw]. Qed.

Section Fuel.

Variable unicodeUpper : string -> string.
Variable unicodeTrim : string -> string.
Variable unicodeTrimRight : string -> string.

Lemma pure_interpret line msg size : pure (interpret unicodeUpper line msg size).
Proof.
  unfold interpret. apply pure_bind; [apply pure_index|]. intros p0.
  destruct (decide _); [apply pure_ret|].
  apply pure_bind; [apply pure_index|]. intros v.
  destruct (decide _); [|apply pure_ret].
  apply pure_bind; [apply pure_index|]. intros a.
  destruct (HasPrefix _ _); [|apply pure_ret].
  apply pure_bind; [apply pure_index|]. intros afterEq.
  destruct (Atoi afterEq) as [k [err|]]; apply pure_ret.
Qed.

Lemma commandLoop_fueled fuel line msg size c :
  budget c < fuel -> (commandLoop unicodeUpper fuel line msg size c).1 <> OutOfFuel.
Proof.
  revert line msg size c. induction fuel as [|fuel IH]; intros line msg size c Hb; [lia|].
  unfold commandLoop; fold (commandLoop unicodeUpper).
  destruct (decide (line = "")); [done|]. intros H.
  apply bind_out_of_fuel in H as [H | ([l err] & c1 & E1 & H)];
    [by apply readLine_fueled in H|].
  apply readLine_budget in E1. destruct err; [done|].
  apply bind_out_of_fuel in H as [H | (cmd & c2 & E2 & H)];
    [by apply pure_interpret in H|].
  assert (c2 = c1) as ->.
  { pose proof (proj1 (pure_interpret l msg size c1)) as Hp. by rewrite E2 in Hp. }
  destruct cmd as [|m' size'|e]; [| |done].
  - apply bind_out_of_fuel in H as [H | (a & c3 & _ & H)];
      [by apply writeLn_fueled in H | by destruct a].
  - apply bind_out_of_fuel in H as [H | (a & c3 & E3 & H)];
      [by apply writeLn_fueled in H|].
    apply writeLn_budget in E3. destruct a; [done|].
    apply IH in H; [done | lia].
Qed.

Lemma headerLoop_fueled fuel msg c :
  budget c < fuel ->
  (headerLoop unicodeUpper unicodeTrim unicodeTrimRight fuel msg c).1 <> OutOfFuel.
Proof.
  revert msg c. induction fuel as [|fuel IH]; intros msg c Hb; [lia|].
  unfold headerLoop; fold (headerLoop unicodeUpper unicodeTrim unicodeTrimRight).
  intros H.
  apply bind_out_of_fuel in H as [H | ([l err] & c1 & E1 & H)];
    [by apply readMultiLine_fueled in H|].
  apply readMultiLine_budget in E1. destruct err; [done|].
  destruct (decide _); [done|].
  apply bind_out_of_fuel in H as [H | (p0 & c2 & E2 & H)];
    [by apply pure_index in H|].
  assert (c2 = c1) as ->.
  { pose proof (proj1 (pure_index (SplitN l ": " 2) 0 c1)) as Hp. by rewrite E2 in Hp. }
  apply bind_out_of_fuel in H as [H | (v & c3 & E3 & H)];
    [by apply pure_index in H|].
  assert (c3 = c1) as ->.
  { pose proof (proj1 (pure_index (SplitN l ": " 2) 1 c1)) as Hp. by rewrite E3 in Hp. }
  apply IH in H; [done | lia].
Qed.

Lemma envelope_fueled line msg c :
  (envelope unicodeUpper unicodeTrim unicodeTrimRight line msg c).1 <> OutOfFuel.
Proof.
  unfold envelope. intros H.
  apply bind_out_of_fuel in H as [H | (a & c1 & _ & H)]; [by apply writeLn_fueled in H|].
  destruct a; [done|].
  apply bind_out_of_fuel in H as [H | (a & c2 & _ & H)]; [by apply writeSettings_fueled in H|].
  destruct a; [done|].
  apply bind_out_of_fuel in H as [H | (a & c3 & _ & H)]; [by apply writeLn_fueled in H|].
  destruct a; [done|].
  apply bind_out_of_fuel in H as [H | (r & c4 & _ & H)].
  { apply commandLoop_fueled in H; [done | lia]. }
  destruct r as [e | [m size]]; [done|].
  apply bind_out_of_fuel in H as [H | (r & c5 & _ & H)].
  { apply headerLoop_fueled in H; [done | lia]. }
  destruct r as [e | m']; [done|].
  apply bind_out_of_fuel in H as [H | ([b err] & c6 & _ & H)];
    [by apply readToEndOfBody_fueled in H|].
  destruct err; [done|].
  apply bind_out_of_fuel in H as [H | (a & c7 & _ & H)]; [by apply writeLn_fueled in H|].
  by destruct a.
Qed.

(** X21. Every line that [readLine] or [readMultiLine] returns takes a
    read or some bytes away from what is still to be framed, so that the
    command loop and the header loop of [handle] end within the bound
    they are given: [handle] never runs out of it. *)
Theorem handle_has_fuel (c : connection) :
  (handle unicodeUpper unicodeTrim unicodeTrimRight c).1 <> OutOfFuel.
Proof.
  unfold handle. intros H.
  apply bind_out_of_fuel in H as [H | (a & c1 & _ & H)]; [by apply writeLn_fueled in H|].
  destruct a; [done|].
  apply bind_out_of_fuel in H as [H | ([l err] & c2 & _ & H)]; [by apply readLine_fueled in H|].
  destruct err; [done|]. destruct (HasPrefix l "EHLO"); [|done].
  apply bind_out_of_fuel in H as [H | (d & c3 & _ & H)]; [by apply pure_slice in H|].
  by apply envelope_fueled in H.
Qed.

End Fuel.

(** ** More on the frame reader *)

Lemma occurs_at_take pat b n s : occurs_at pat (take n b) s -> occurs_at pat b s.
Proof.
  rewrite !occurs_at_lookup. intros H j x Hx. specialize (H j x Hx).
  rewrite lookup_take in H. by destruct (decide _).
Qed.

Lemma first_lineEnd_no_crlf b i s :
  first_at (lineEndAt b) b i -> ~ occurs_at crlf (take (i - 1) b) s.
Proof.
  intros (Hi & Hp & Hfirst) Hocc.
  pose proof (occurs_at_length _ _ _ Hocc ltac:(done)) as Hlen.
  rewrite length_take in Hlen. simpl in Hlen.
  apply occurs_at_take in Hocc.
  assert (lineEndAt b (s + 1) = true) as Ht.
  { apply lineEndAt_true. split; [lia|]. by replace (s + 1 - 1) with s by lia. }
  rewrite Hfirst in Ht; [done | lia].
Qed.

Lemma readLine_from_line rs b l rs' b' :
  readLine_from rs b = (Returns (l, None), (rs', b')) ->
  forall s, ~ occurs_at crlf (bytes l) s.
Proof.
  revert b. induction rs as [|r rs IH]; intros b E; simpl in E; [done|].
  destruct (rd_err r) eqn:Hr; [done|]. rewrite endOfLine_at in E.
  destruct (range_from _ _ _) as [i|] eqn:Hscan.
  - injection E as <- <- <-. intros s. rewrite bytes_str.
    apply range_first in Hscan. by apply first_lineEnd_no_crlf.
  - exact (IH _ E).
Qed.

Lemma readLine_from_error rs b l e rs' b' :
  readLine_from rs b = (Returns (l, Some e), (rs', b')) ->
  l = "" /\ exists data x, took rs (x :: rs') data /\ rd_err x = Some e /\ b' = b ++ data.
Proof.
  revert b. induction rs as [|r rs IH]; intros b E; simpl in E; [done|].
  destruct (rd_err r) eqn:Hr.
  - injection E as <- <- <- <-. split; [done|]. exists [], r.
    split; [by exists []|]. split; [done|]. by rewrite app_nil_r.
  - rewrite endOfLine_at in E. destruct (range_from _ _ _); [done|].
    apply IH in E as (-> & data & x & Ht & Hx & ->). split; [done|].
    exists (rd_data r ++ data), x. split; [by apply took_cons|]. split; [done|].
    by rewrite app_assoc.
Qed.

(** X2. A call of [readLine] that returns has taken at least one result
    from the transport, whatever the buffer held. *)
Theorem readLine_takes_a_read (c c' : connection) (r : string * option error) :
  readLine c = (Returns r, c') ->
  length (incoming (conn c')) < length (incoming (conn c)).
Proof.
  unfold readLine. destruct c as [[rs ws w] i b]. simpl.
  destruct (readLine_from rs b) as [r0 [rs' b']] eqn:E. intros [= -> <-]. simpl.
  revert b E. induction rs as [|x rs IH]; intros b E; simpl in E; [done|].
  destruct (rd_err x).
  - injection E as _ <- _. simpl. lia.
  - destruct (range_from _ _ _).
    + injection E as _ <- _. simpl. lia.
    + apply IH in E. simpl. lia.
Qed.

Lemma readLine_takes_a_read_witness :
  length (incoming (conn (readLine (accepted [RdOk (line "A")])).2))
  < length (incoming (conn (accepted [RdOk (line "A")]))).
Proof.
  eapply (readLine_takes_a_read _ _ ("A", None)). vm_compute. reflexivity.
Defined.

(** X1. The frame of [readLine]: when it returns a line, what was
    buffered followed by what the call has read is the line, CRLF and
    what stays buffered; there is no CRLF inside the line; and nothing
    has been written. *)
Theorem readLine_frame (c c' : connection) (l : string) :
  readLine c = (Returns (l, None), c') ->
  (exists data, took (incoming (conn c)) (incoming (conn c')) data /\
                buf c ++ data = bytes l ++ crlf ++ buf c') /\
  (forall s, ~ occurs_at crlf (bytes l) s) /\
  outgoing (conn c') = outgoing (conn c) /\ wire (conn c') = wire (conn c).
Proof.
  unfold readLine. destruct (readLine_from _ _) as [r0 [rs b]] eqn:E.
  intros [= -> <-]. cbn. split; [by apply readLine_from_conserves in E|].
  split; [exact (readLine_from_line _ _ _ _ _ E) | done].
Qed.

Lemma readLine_frame_witness :
  let c := accepted [RdOk (bytes "EH"); RdOk (bytes "LO x" ++ [CR]); RdOk (LF :: bytes "MAIL")] in
  (exists data, took (incoming (conn c)) (incoming (conn (readLine c).2)) data /\
                buf c ++ data = bytes "EHLO x" ++ crlf ++ buf (readLine c).2) /\
  (forall s, ~ occurs_at crlf (bytes "EHLO x") s) /\
  outgoing (conn (readLine c).2) = outgoing (conn c) /\
  wire (conn (readLine c).2) = wire (conn c).
Proof.
  intros c. apply (readLine_frame c (readLine c).2 "EHLO x"). vm_compute. reflexivity.
Defined.

(** X3. A transport error in [readLine]: the line returned with the
    error is empty, the error is that of the read that failed, and the
    bytes of the reads before it have been added to the buffer. *)
Theorem readLine_error (c c' : connection) (l : string) (e : error) :
  readLine c = (Returns (l, Some e), c') ->
  l = "" /\
  exists data x, took (incoming (conn c)) (x :: incoming (conn c')) data /\
                 rd_err x = Some e /\ buf c' = buf c ++ data.
Proof.
  unfold readLine. destruct (readLine_from _ _) as [r0 [rs b]] eqn:E.
  intros [= -> <-]. cbn. by apply readLine_from_error in E.
Qed.

Lemma readLine_error_witness :
  let c := accepted [RdOk (bytes "EHLO"); RdErr EOF] in
  "" = "" /\
  exists data x, took (incoming (conn c)) (x :: incoming (conn (readLine c).2)) data /\
                 rd_err x = Some EOF /\ buf (readLine c).2 = buf c ++ data.
Proof.
  intros c. apply (readLine_error c (readLine c).2 "" EOF). vm_compute. reflexivity.
Defined.

(** X4. One line, however it is cut: when what is buffered and the
    reads to come, of which there is at least one, make up a line
    without CRLF in it, CRLF and a rest, [readLine] returns the line. *)
Theorem readLine_fragmentation (l rest b : list ascii) (chunks : list (list ascii))
  (more : list read_result) (ws : list write_result) (w : list ascii) (i : Z) :
  chunks <> [] ->
  (forall s, s < length l -> ~ occurs_at crlf (l ++ crlf) s) ->
  b ++ concat chunks = l ++ crlf ++ rest ->
  (readLine (Connection (mkConn (map RdOk chunks ++ more) ws w) i b)).1
  = Returns (str l, None).
Proof.
  intros Hne Hfirst Htot.
  assert (first_at (lineEndAt (l ++ crlf ++ rest)) (l ++ crlf ++ rest) (length l + 1)) as Hk.
  { split; [rewrite !length_app; simpl; lia|]. split.
    - apply lineEndAt_true. split; [lia|].
      replace (length l + 1 - 1) with (length l) by lia.
      unfold occurs_at. rewrite drop_app_length. by apply prefix_app_r.
    - intros j Hj. destruct (lineEndAt _ j) eqn:Hc; [|done]. exfalso.
      apply lineEndAt_true in Hc as [Hpos Hocc]. apply (Hfirst (j - 1)); [lia|].
      rewrite app_assoc in Hocc. apply occurs_at_app_l in Hocc; [done|].
      rewrite length_app. simpl. lia. }
  destruct (readLine_from_chunks chunks more b _ _ Hne Htot Hk) as [n Hn].
  unfold readLine. cbn [conn incoming buf]. rewrite Hn. cbn [fst].
  replace (length l + 1 - 1) with (length l) by lia. by rewrite take_app_length.
Qed.

Lemma readLine_fragmentation_witness :
  (readLine (Connection
     (mkConn (map RdOk [bytes "EH"; bytes "LO x" ++ [CR]; [LF]] ++ []) [] []) 1 [])).1
  = Returns (str (bytes "EHLO x"), None).
Proof.
  apply (readLine_fragmentation (bytes "EHLO x") []).
  - discriminate.
  - intros s Hs. unfold occurs_at. apply (bool_decide_eq_false_1 _).
    do 6 (destruct s as [|s]; [vm_compute; reflexivity|]).
    vm_compute in Hs. lia.
  - vm_compute. reflexivity.
Defined.

(** X7. [readMultiLine] never loops without reading: when the scan
    ends without a block, [noMoreReads] is not set. *)
Theorem readMultiLine_never_spins (c : connection) : (readMultiLine c).1 <> Spins.
Proof.
  unfold readMultiLine.
  pose proof (readMultiLine_from_never_spins (incoming (conn c)) (buf c)).
  by destruct (readMultiLine_from _ _) as [r [rs b]].
Qed.

(** X5. The frame of [readMultiLine]: when it returns a block, what was
    buffered followed by what the call has read is the block, CRLF and
    what stays buffered, and the buffer starts with the byte that ended
    the block, which is neither a space nor a tab. *)
Theorem readMultiLine_frame (c c' : connection) (l : string) :
  readMultiLine c = (Returns (l, None), c') ->
  exists data x rest,
    took (incoming (conn c)) (incoming (conn c')) data /\
    buf c ++ data = bytes l ++ crlf ++ buf c' /\
    buf c' = x :: rest /\ x <> SP /\ x <> TAB.
Proof.
  unfold readMultiLine. destruct (readMultiLine_from _ _) as [r0 [rs b]] eqn:E.
  intros [= -> <-]. cbn.
  apply readMultiLine_from_conserves in E as (data & x & Ht & Hd & Hx & Hsp & Htab).
  destruct b as [|y rest]; [done|]. injection Hx as ->. by exists data, x, rest.
Qed.

Lemma readMultiLine_frame_witness :
  let c := Connection (peer [RdOk (bytes "Cc: c")]) 1 (line "To: a") in
  exists data x rest,
    took (incoming (conn c)) (incoming (conn (readMultiLine c).2)) data /\
    buf c ++ data = bytes "To: a" ++ crlf ++ buf (readMultiLine c).2 /\
    buf (readMultiLine c).2 = x :: rest /\ x <> SP /\ x <> TAB.
Proof.
  intros c. apply (readMultiLine_frame c (readMultiLine c).2 "To: a"). vm_compute. reflexivity.
Defined.

Lemma readMultiLine_from_chunks chunks more b total k :
  b ++ concat chunks = total ->
  first_at (foldEndAt total) total k ->
  exists n,
    readMultiLine_from (map RdOk chunks ++ more) b =
    (Returns (str (take (k - 2) total), None),
     (map RdOk (drop n chunks) ++ more, drop k (b ++ concat (take n chunks)))).
Proof.
  revert b. induction chunks as [|d chunks IH]; intros b Htot Hk.
  - simpl in Htot. rewrite app_nil_r in Htot. subst b. exists 0. simpl.
    rewrite app_nil_r. by apply readMultiLine_from_found.
  - simpl in Htot. destruct (decide (k < length b)) as [Hlt|Hge].
    + subst total. pose proof (first_at_app _ _ _ _ foldEndAt_stable Hk Hlt) as Hk'.
      exists 0. rewrite (readMultiLine_from_found _ _ _ Hk').
      simpl. rewrite app_nil_r, take_app_le by lia. done.
    + rewrite readMultiLine_from_missing.
      2:{ subst total. eapply first_at_later; [apply foldEndAt_stable | apply Hk | lia]. }
      destruct (IH (b ++ d)) as [n Hn]; [by rewrite <- app_assoc | done |].
      exists (S n). simpl. rewrite Hn. by rewrite app_assoc.
Qed.

(** X6. One folded block, however it is cut: when what is buffered and
    the reads to come make up a block in which every CRLF is followed by
    a space or a tab, then CRLF and a byte that is neither,
    [readMultiLine] returns the block, continuation lines and the CRLF
    before them included. *)
Theorem readMultiLine_fragmentation (l rest b : list ascii) (x : ascii)
  (chunks : list (list ascii)) (more : list read_result) (ws : list write_result)
  (w : list ascii) (i : Z) :
  x <> SP -> x <> TAB ->
  (forall s, s < length l -> occurs_at crlf (l ++ crlf) s ->
             (l ++ crlf) !! (s + 2) = Some SP \/ (l ++ crlf) !! (s + 2) = Some TAB) ->
  b ++ concat chunks = l ++ crlf ++ x :: rest ->
  (readMultiLine (Connection (mkConn (map RdOk chunks ++ more) ws w) i b)).1
  = Returns (str l, None).
Proof.
  intros Hsp Htab Hfold Htot.
  assert (first_at (foldEndAt (l ++ crlf ++ x :: rest)) (l ++ crlf ++ x :: rest)
                   (length l + 2)) as Hk.
  { split; [rewrite !length_app; simpl; lia|]. split.
    - apply foldEndAt_true. split; [lia|].
      replace (length l + 2 - 2) with (length l) by lia.
      assert ((l ++ crlf ++ x :: rest) !! (length l + 2) = Some x) as ->.
      { rewrite lookup_app_r by lia. by replace (length l + 2 - length l) with 2 by lia. }
      split; [congruence|]. split; [congruence|].
      unfold occurs_at. rewrite drop_app_length. by exists (x :: rest).
    - intros j Hj. destruct (foldEndAt _ j) eqn:Hc; [|done]. exfalso.
      apply foldEndAt_true in Hc as (Hpos & Hnsp & Hntab & Hocc).
      assert (occurs_at crlf (l ++ crlf) (j - 2)) as Hocc'.
      { change (l ++ crlf ++ x :: rest) with (l ++ crlf ++ [x] ++ rest) in Hocc.
        rewrite (app_assoc l crlf) in Hocc. apply occurs_at_app_l in Hocc; [done|].
        rewrite length_app. simpl. lia. }
      assert ((l ++ crlf ++ x :: rest) !! j = (l ++ crlf) !! (j - 2 + 2)) as E.
      { replace (j - 2 + 2) with j by lia.
        change (l ++ crlf ++ x :: rest) with (l ++ crlf ++ [x] ++ rest).
        rewrite (app_assoc l crlf), lookup_app_l; [done|]. rewrite length_app. simpl. lia. }
      rewrite E in Hnsp, Hntab.
      destruct (Hfold (j - 2)) as [H|H]; [lia | done | done | done]. }
  destruct (readMultiLine_from_chunks chunks more b _ _ Htot Hk) as [n Hn].
  unfold readMultiLine. cbn [conn incoming buf]. rewrite Hn. cbn [fst].
  replace (length l + 2 - 2) with (length l) by lia. by rewrite take_app_length.
Qed.

Lemma readMultiLine_fragmentation_witness :
  (readMultiLine (Connection
     (mkConn (map RdOk [bytes "ect: hi" ++ [CR]; LF :: bytes "  the"; bytes "re" ++ crlf;
                        crlf] ++ []) [] []) 1 (bytes "Subj"))).1
  = Returns (str (bytes "Subject: hi" ++ crlf ++ bytes "  there"), None).
Proof.
  apply (readMultiLine_fragmentation (bytes "Subject: hi" ++ crlf ++ bytes "  there")
           [LF] _ CR).
  - discriminate.
  - discriminate.
  - intros s Hs Hocc. apply (bool_decide_unpack _).
    unfold occurs_at in Hocc. apply (bool_decide_pack _) in Hocc.
    do 20 (destruct s as [|s]; [vm_compute in Hocc; vm_compute; tauto|]).
    vm_compute in Hs. lia.
  - vm_compute. reflexivity.
Defined.

(** X8. With the body-close sequence in the buffer at offset [s],
    [readMultiLine] returns a block without touching the transport; the
    block is a prefix of the buffer of [s] bytes at most. *)
Theorem readMultiLine_bodyClose_no_read (c : connection) (s : nat) :
  occurs_at bodyClose (buf c) s ->
  exists l c', readMultiLine c = (Returns (l, None), c') /\
    conn c' = conn c /\ len l <= s /\ bytes l `prefix_of` buf c.
Proof.
  intros Hocc. unfold readMultiLine.
  destruct (readMultiLine_from_bodyClose (incoming (conn c)) (buf c) s Hocc)
    as (k & Hk & _ & E).
  rewrite E. eexists _, _. split; [reflexivity|]. cbn. split; [by destruct c as [[]]|].
  split.
  - rewrite <- length_bytes, bytes_str, length_take. lia.
  - rewrite bytes_str. apply prefix_take.
Qed.

Lemma readMultiLine_bodyClose_no_read_witness :
  let c := Connection (peer [RdErr EOF]) 1 (bytes "Subject: hi" ++ bodyClose) in
  exists l c', readMultiLine c = (Returns (l, None), c') /\
    conn c' = conn c /\ len l <= 11 /\ bytes l `prefix_of` buf c.
Proof.
  intros c. apply (readMultiLine_bodyClose_no_read c 11). by exists [].
Defined.

(** X9. What [readToEndOfBody] returns: the body is never empty; the
    bytes read have been added to the buffer and nothing has been taken
    from it; the buffer starts with the body and the body-close
    sequence. *)
Theorem readToEndOfBody_result (toRead : Z) (c c' : connection) (p : string) :
  readToEndOfBody toRead c = (Returns (p, None), c') ->
  p <> "" /\
  exists data rest, took (incoming (conn c)) (incoming (conn c')) data /\
    buf c' = buf c ++ data /\ buf c' = bytes p ++ bodyClose ++ rest.
Proof.
  unfold readToEndOfBody. destruct (readToEndOfBody_from _ _) as [r0 [rs b]] eqn:E.
  intros [= -> <-]. cbn.
  apply readToEndOfBody_from_keeps in E as (rest & data & Ht & Hb & Hp & Hne).
  split; [done|]. by exists data, rest.
Qed.

Lemma readToEndOfBody_result_witness :
  let c := Connection (peer [RdOk (bytes "hello" ++ [CR; LF; DOT]); RdOk crlf]) 1 bodyClose in
  str (bodyClose ++ bytes "hello") <> "" /\
  exists data rest, took (incoming (conn c)) (incoming (conn (readToEndOfBody 0 c).2)) data /\
    buf (readToEndOfBody 0 c).2 = buf c ++ data /\
    buf (readToEndOfBody 0 c).2 = bytes (str (bodyClose ++ bytes "hello")) ++ bodyClose ++ rest.
Proof.
  intros c. apply (readToEndOfBody_result 0 c). vm_compute. reflexivity.
Defined.

(** ** More on the dialogue *)

Lemma SplitN_whole s sep : Index s sep = None -> SplitN s sep 2 = [s].
Proof. intros H. cbv [SplitN]. by rewrite H. Qed.



Section DialogueEdges.

Variable unicodeUpper : string -> string.
Variable unicodeTrim : string -> string.
Variable unicodeTrimRight : string -> string.

Local Abbreviation U := unicodeUpper.
Local Abbreviation T := unicodeTrim.
Local Abbreviation R := unicodeTrimRight.

(** X13. A command line without a colon that is not DATA, the empty
    line among them, makes the command loop panic: index 1 of a slice of
    length 1. *)
Theorem interpret_without_colon (l : string) (msg : message) (size : Z) (c : connection) :
  Index l ":" = None -> ToUpper U l <> "DATA" ->
  interpret U l msg size c = (Panics (IndexOutOfRange 1 1), c).
Proof.
  intros Hcolon Hdata. unfold interpret. rewrite (SplitN_whole _ _ Hcolon).
  change (index [l] 0) with (@ret string l). rewrite bind_ret.
  rewrite decide_False by done. done.
Qed.

(** X14. A line whose keyword is DATA in upper case ends the commands,
    alone or followed by a colon and anything; nothing is stored. *)
Theorem interpret_DATA (kw v : string) (msg : message) (size : Z) (c : connection) :
  Index kw ":" = None -> ToUpper U kw = "DATA" ->
  interpret U kw msg size c = (Returns Data, c) /\
  interpret U (kw +:+ ":" +:+ v) msg size c = (Returns Data, c).
Proof.
  intros Hcolon Hdata. unfold interpret.
  rewrite (SplitN_whole _ _ Hcolon), (SplitN_colon _ _ Hcolon).
  change (index [kw] 0) with (@ret string kw).
  change (index [kw; v] 0) with (@ret string kw). rewrite !bind_ret.
  rewrite !decide_True by done. done.
Qed.

(** X15. A command other than DATA and MAIL FROM is stored under its
    keyword in upper case, with all that follows the first colon as its
    value; the other commands, the client domain, the headerLoop U T R and the
    declared size stay as they are. *)
Theorem interpret_stores (kw v : string) (msg : message) (size : Z) (c : connection) :
  Index kw ":" = None -> ToUpper U kw <> "DATA" -> ToUpper U kw <> "MAIL FROM" ->
  exists m, interpret U (kw +:+ ":" +:+ v) msg size c = (Returns (Stored m size), c) /\
    smtpHeaders m !! ToUpper U kw = Some v /\
    (forall k, k <> ToUpper U kw -> smtpHeaders m !! k = smtpHeaders msg !! k) /\
    clientDomain m = clientDomain msg /\ atmHeaders m = atmHeaders msg.
Proof.
  intros Hcolon Hdata Hmail. exists (set_smtpHeader msg (ToUpper U kw) v). split.
  - unfold interpret. rewrite (SplitN_colon _ _ Hcolon).
    change (index [kw; v] 0) with (@ret string kw). rewrite bind_ret.
    rewrite decide_False by done.
    change (index [kw; v] 1) with (@ret string v). rewrite bind_ret.
    rewrite decide_False by done. done.
  - cbn. split; [apply lookup_insert_eq|]. split; [|done].
    intros k Hk. by apply lookup_insert_ne.
Qed.

(** X16. A MAIL FROM command whose value has no "> " makes the command
    loop panic: index 1 of a slice of length 1. *)
Theorem interpret_MAIL_FROM_without_separator (kw v : string) (msg : message) (size : Z)
  (c : connection) :
  Index kw ":" = None -> ToUpper U kw = "MAIL FROM" -> Index v "> " = None ->
  interpret U (kw +:+ ":" +:+ v) msg size c = (Panics (IndexOutOfRange 1 1), c).
Proof.
  intros Hcolon Hmail Hsep.
  rewrite (interpret_mail_from _ _ _ _ _ _ Hmail Hcolon), (SplitN_whole _ _ Hsep). done.
Qed.

(** X18. A header block that is not blank and has no ": " makes the
    header loop panic: index 1 of a slice of length 1. *)
Theorem headerLoop_without_separator (fuel : nat) (msg : message) (c c' : connection)
  (l : string) :
  readMultiLine c = (Returns (l, None), c') ->
  TrimSpace T R l <> "" -> Index l ": " = None ->
  headerLoop U T R (S fuel) msg c = (Panics (IndexOutOfRange 1 1), c').
Proof.
  intros Hread Hne Hsep. unfold headerLoop.
  rewrite (bind_returns _ _ _ _ _ Hread). cbv beta iota.
  rewrite decide_False by done. rewrite (SplitN_whole _ _ Hsep).
  change (index [l] 0) with (@ret string l). rewrite bind_ret. done.
Qed.

(** X17. One pass of the header loop on a block "name: value": the
    value is stored under the name in upper case, is copied to the field
    of the envelope that the name stands for, if it is SUBJECT, TO, FROM
    or DATE, and the rest of the envelope stays as it is. *)
Theorem headerLoop_header (fuel : nat) (msg : message) (c c' : connection)
  (name v : string) :
  readMultiLine c = (Returns (name +:+ ": " +:+ v, None), c') ->
  TrimSpace T R (name +:+ ": " +:+ v) <> "" -> Index name ": " = None ->
  exists m, headerLoop U T R (S fuel) msg c = headerLoop U T R fuel m c' /\
    atmHeaders m !! ToUpper U name = Some v /\
    (forall k, k <> ToUpper U name -> atmHeaders m !! k = atmHeaders msg !! k) /\
    subject m = (if decide (ToUpper U name = "SUBJECT") then v else subject msg) /\
    to m = (if decide (ToUpper U name = "TO") then v else to msg) /\
    from m = (if decide (ToUpper U name = "FROM") then v else from msg) /\
    date m = (if decide (ToUpper U name = "DATE") then v else date msg) /\
    clientDomain m = clientDomain msg /\ smtpHeaders m = smtpHeaders msg /\
    body m = body msg.
Proof.
  intros Hread Hne Hsep.
  exists (mirror (set_atmHeader msg (ToUpper U name) v) (ToUpper U name) v). split.
  - unfold headerLoop at 1. fold headerLoop.
    rewrite (bind_returns _ _ _ _ _ Hread). cbv beta iota.
    rewrite decide_False by done.
    assert (SplitN (name +:+ ": " +:+ v) ": " 2 = [name; v]) as ->.
    { cbv [SplitN].
      assert (Index (name +:+ ": " +:+ v) ": " = Some (len name)) as ->.
      { clear Hread Hne. induction name as [|a name IH]; intros.
        - apply Index_prefix. rewrite append_nil. apply (HasPrefix_app ": " v).
        - apply Index_cons_None in Hsep as [Hp Hi]. rewrite append_cons.
          apply Index_cons_skip; [|by apply IH].
          rewrite HasPrefix_cons in *. destruct (bool_decide (":"%char = a)); [|done].
          rewrite andb_true_l in *. destruct name as [|a' name].
          + rewrite append_nil, append_cons, HasPrefix_cons. done.
          + rewrite append_cons. rewrite HasPrefix_cons, HasPrefix_nil in *. done. }
      f_equal; [apply sliceTo_app|]. f_equal.
      rewrite sliceFrom_add, sliceFrom_app. done. }
    change (index [name; v] 0) with (@ret string name). rewrite bind_ret.
    change (index [name; v] 1) with (@ret string v). rewrite bind_ret. done.
  - unfold mirror. repeat case_decide; cbn;
      (split; [apply lookup_insert_eq|]);
      (split; [intros k Hk; by apply lookup_insert_ne|]); try done; try congruence.
Qed.

End DialogueEdges.

(** ** Whole dialogues *)







Lemma readLine_keeps_wire c r c' :
  readLine c = (r, c') -> wire (conn c') = wire (conn c).
Proof.
  unfold readLine. destruct (readLine_from _ _) as [r0 [rs b]]. by intros [= _ <-].
Qed.




Section Dialogues.

Variable unicodeUpper : string -> string.
Variable unicodeTrim : string -> string.
Variable unicodeTrimRight : string -> string.

Local Abbreviation U := unicodeUpper.
Local Abbreviation T := unicodeTrim.
Local Abbreviation R := unicodeTrimRight.


(** X19. When the banner has been written and the first line does not
    start with "EHLO", [handle] returns with the error "Expected EHLO
    got: " and the line, and has written the banner and no more. *)
Theorem handle_greeting_refused (c c1 c2 : connection) (l : string) :
  writeLn banner c = (Returns None, c1) ->
  readLine c1 = (Returns (l, None), c2) ->
  HasPrefix l "EHLO" = false ->
  handle U T R c = (Returns (Failed (ErrorString ("Expected EHLO got: " +:+ l))), c2) /\
  wire (conn c2) = wire (conn c) ++ line banner.
Proof.
  intros Hw Hr Hp. split.
  - unfold handle. fold banner. rewrite (bind_returns _ _ _ _ _ Hw). cbv beta iota.
    rewrite (bind_returns _ _ _ _ _ Hr). cbv beta iota. by rewrite Hp.
  - rewrite (readLine_keeps_wire _ _ _ Hr). revert Hw. unfold writeLn.
    destruct (writeLn_from _ _ _) as [r [ws w]] eqn:E. intros [= -> <-]. cbn.
    apply writeLn_from_sent in E as (sent & -> & _ & Hfull & _). by rewrite Hfull.
Qed.


End Dialogues.

(** ** Instances of the statements above *)

Lemma interpret_without_colon_witness :
  interpret unreached "QUIT" noMessage 0 (accepted [])
  = (Panics (IndexOutOfRange 1 1), accepted []).
Proof.
  apply (interpret_without_colon unreached "QUIT"); [reflexivity | vm_compute; discriminate].
Defined.

Lemma interpret_DATA_witness :
  interpret unreached "data" noMessage 0 (accepted []) = (Returns Data, accepted []) /\
  interpret unreached ("data" +:+ ":" +:+ "now") noMessage 0 (accepted [])
  = (Returns Data, accepted []).
Proof. apply (interpret_DATA unreached "data" "now"); reflexivity. Defined.

Lemma interpret_stores_witness :
  exists m, interpret unreached ("rcpt to" +:+ ":" +:+ "<x:y@z>") noMessage 7 (accepted [])
            = (Returns (Stored m 7), accepted []) /\
    smtpHeaders m !! ToUpper unreached "rcpt to" = Some "<x:y@z>" /\
    (forall k, k <> ToUpper unreached "rcpt to" ->
               smtpHeaders m !! k = smtpHeaders noMessage !! k) /\
    clientDomain m = clientDomain noMessage /\ atmHeaders m = atmHeaders noMessage.
Proof.
  apply (interpret_stores unreached "rcpt to" "<x:y@z>");
    [reflexivity | vm_compute; discriminate | vm_compute; discriminate].
Defined.

Lemma interpret_MAIL_FROM_without_separator_witness :
  interpret unreached ("Mail From" +:+ ":" +:+ "<a@b.com>") noMessage 0 (accepted [])
  = (Panics (IndexOutOfRange 1 1), accepted []).
Proof.
  apply (interpret_MAIL_FROM_without_separator unreached "Mail From" "<a@b.com>");
    reflexivity.
Defined.

Lemma headerLoop_without_separator_witness :
  let c := Connection (peer []) 1 (line "Subject:hi" ++ line "" ++ bytes "x") in
  headerLoop unreached unreached unreached 1 noMessage c
  = (Panics (IndexOutOfRange 1 1), (readMultiLine c).2).
Proof.
  intros c.
  apply (headerLoop_without_separator unreached unreached unreached 0 noMessage c
           (readMultiLine c).2 "Subject:hi");
    [vm_compute; reflexivity | vm_compute; discriminate | reflexivity].
Defined.

Lemma headerLoop_header_witness :
  let c := Connection (peer []) 1 (line "subject: hi" ++ line "" ++ bytes "x") in
  exists m, headerLoop unreached unreached unreached 1 noMessage c
            = headerLoop unreached unreached unreached 0 m (readMultiLine c).2 /\
    atmHeaders m !! ToUpper unreached "subject" = Some "hi" /\
    (forall k, k <> ToUpper unreached "subject" ->
               atmHeaders m !! k = atmHeaders noMessage !! k) /\
    subject m = (if decide (ToUpper unreached "subject" = "SUBJECT") then "hi"
                 else subject noMessage) /\
    to m = (if decide (ToUpper unreached "subject" = "TO") then "hi" else to noMessage) /\
    from m = (if decide (ToUpper unreached "subject" = "FROM") then "hi"
              else from noMessage) /\
    date m = (if decide (ToUpper unreached "subject" = "DATE") then "hi"
              else date noMessage) /\
    clientDomain m = clientDomain noMessage /\ smtpHeaders m = smtpHeaders noMessage /\
    body m = body noMessage.
Proof.
  intros c.
  apply (headerLoop_header unreached unreached unreached 0 noMessage c
           (readMultiLine c).2 "subject" "hi");
    [vm_compute; reflexivity | vm_compute; discriminate | reflexivity].
Defined.

Lemma handle_greeting_refused_witness :
  let c := accepted [RdOk (line "HELO x")] in
  handleASCII c
  = (Returns (Failed (ErrorString ("Expected EHLO got: " +:+ "HELO x"))),
     (readLine (writeLn banner c).2).2) /\
  wire (conn (readLine (writeLn banner c).2).2) = wire (conn c) ++ line banner.
Proof.
  intros c.
  apply (handle_greeting_refused unreached unreached unreached c (writeLn banner c).2);
    vm_compute; reflexivity.
Defined.


(** ** [main] *)

(** A sum within the bounds of [int] is exact. *)
Lemma intAdd_exact a b :
  (minInt <= a + b <= maxInt)%Z -> intAdd a b = (a + b)%Z.
Proof.
  unfold minInt, maxInt, intAdd. intros H. rewrite Z.mod_small; lia.
Qed.

(** Past the greatest [int] the counter of [main] wraps around to the
    least. *)
Lemma acceptLoop_wraps cn :
  acceptLoop maxInt [inl cn] = ([Connection cn minInt []], minInt).
Proof. reflexivity. Qed.

Lemma acceptLoop_numbers id results :
  (0 <= id)%Z -> (id + Z.of_nat (length (accepts results)) <= maxInt)%Z ->
  acceptLoop id results
  = (imap (fun k cn => Connection cn (id + Z.of_nat k + 1)%Z []) (accepts results),
     (id + Z.of_nat (length (accepts results)))%Z).
Proof.
  revert id. induction results as [|[cn|e] results IH]; intros id H0 Hmax.
  - cbn. by rewrite Z.add_0_r.
  - change (accepts (inl cn :: results)) with (cn :: accepts results) in *.
    cbn [length] in Hmax.
    unfold acceptLoop; fold acceptLoop. cbv zeta.
    rewrite intAdd_exact by (unfold minInt; lia).
    rewrite IH by lia. rewrite imap_cons. cbn [length].
    f_equal; [|lia]. f_equal; [by rewrite Z.add_0_r|].
    apply imap_ext. intros k x _. cbn. f_equal. lia.
  - change (accepts (inr e :: results)) with (accepts results) in *.
    unfold acceptLoop; fold acceptLoop. by rewrite IH.
Qed.

(** X22. As long as the connections are no more than the greatest [int]
    (2^63 - 1, on a target with 64 bits), [main] numbers them 1, 2, 3 and
    so on in the order in which they are accepted: the connection of the
    k-th accept that did not fail has the id k and a nil buffer, failed
    accepts take no id, no two connections share an id, and the counter
    ends at the number of connections. *)
Theorem main_numbers_connections (results : list (Conn + error)) :
  (Z.of_nat (length (accepts results)) <= maxInt)%Z ->
  length (main results).1 = length (accepts results) /\
  (main results).2 = Z.of_nat (length (accepts results)) /\
  (forall k c, (main results).1 !! k = Some c ->
     id c = (Z.of_nat k + 1)%Z /\ buf c = [] /\ accepts results !! k = Some (conn c)) /\
  NoDup (id <$> (main results).1).
Proof.
  intros Hmax. unfold main. rewrite acceptLoop_numbers by lia. cbn [fst snd].
  split; [by rewrite length_imap|]. split; [done|].
  assert (forall k c,
    imap (fun k cn => Connection cn (0 + Z.of_nat k + 1)%Z []) (accepts results) !! k = Some c ->
    id c = (Z.of_nat k + 1)%Z /\ buf c = [] /\ accepts results !! k = Some (conn c)) as Hk.
  { intros k c. rewrite list_lookup_imap.
    destruct (accepts results !! k) as [cn|]; [|done]. intros [= <-]. done. }
  split; [exact Hk|].
  apply NoDup_alt. intros i j n Hi Hj.
  apply list_lookup_fmap_Some in Hi as (ci & -> & Hci).
  apply list_lookup_fmap_Some in Hj as (cj & E & Hcj).
  apply Hk in Hci as (Ei & _). apply Hk in Hcj as (Ej & _). lia.
Qed.

Lemma main_numbers_connections_witness :
  let results := [inl (peer []); inr (NetError "accept"); inl (peer [RdErr EOF])] in
  (Z.of_nat (length (accepts results)) <= maxInt)%Z /\
  (main results).1 = [Connection (peer []) 1 []; Connection (peer [RdErr EOF]) 2 []] /\
  (main results).2 = 2%Z /\
  NoDup (id <$> (main results).1).
Proof.
  intros results.
  assert (Z.of_nat (length (accepts results)) <= maxInt)%Z as H by (vm_compute; discriminate).
  split; [exact H|].
  destruct (main_numbers_connections results H) as (_ & Hlast & _ & Hdup).
  split; [reflexivity|]. split; [exact Hlast | exact Hdup].
Defined.
